(** * go-rate-limiter: the sliding-window limiter and its Redis script

    The development embeds two pieces of the repository:

    - the Lua script [slidingWindowScript] (package [limiter]), together with
      the four Redis commands it calls, as functions over an explicit Redis
      keyspace;
    - the Go method [RateLimiter.IsRequestAllowed], which reads the clock
      twice, formats a request id, runs the script and fails open on error.

    Integers ([int], [int64], Lua numbers holding integers) are [Z].  Lua
    numbers are IEEE doubles; the script only subtracts and compares, which is
    exact on integers below 2^53, the range of epoch milliseconds, of
    [Duration.Milliseconds] and of sorted-set cardinalities. *)

From stdpp Require Import base tactics option numbers list gmap fin_maps strings pretty.
From Stdlib Require Import Ascii.

#[local] Open Scope Z_scope.

(** ** The Redis keyspace *)

Module Redis.

(** A key holds a typed value and an optional absolute expiry (milliseconds on
    the server clock).  Only sorted sets are given a structure: a sorted set is
    a finite map from member to score, so that members are unique and
    [ZADD] on an existing member rewrites its score. *)
Inductive rvalue :=
  | VZSet (zs : gmap string Z)
  | VString (s : string).

Record robj := RObj { obj_val : rvalue; obj_expire : option Z }.

Inductive error := WRONGTYPE.

#[global] Instance rvalue_eq_dec : EqDecision rvalue.
Proof. solve_decision. Defined.
#[global] Instance robj_eq_dec : EqDecision robj.
Proof. solve_decision. Defined.
#[global] Instance error_eq_dec : EqDecision error.
Proof. solve_decision. Defined.

(** A command, and a script, is a state transformer that yields an integer
    reply or raises; what was written before a raise stays written. *)
Definition Lua (A : Type) : Type :=
  gmap string robj → gmap string robj * (error + A).

Definition ret {A} (a : A) : Lua A := λ d, (d, inr a).

Definition bind {A B} (m : Lua A) (k : A → Lua B) : Lua B := λ d,
  match m d with
  | (d', inr a) => k a d'
  | (d', inl e) => (d', inl e)
  end.

Notation "'call' x := c 'in' k" := (bind c (λ x, k))
  (at level 10, x binder, c at level 100, k at level 200).

(** Expiry is lazy: a key whose deadline lies strictly before the server time
    of the command that touches it is deleted first. *)
Definition expired (srv : Z) (o : robj) : bool :=
  match obj_expire o with
  | Some t => bool_decide (t < srv)
  | None => false
  end.

Definition expireIfNeeded (srv : Z) (key : string) (d : gmap string robj)
  : gmap string robj :=
  match d !! key with
  | Some o => if expired srv o then delete key d else d
  | None => d
  end.

(** What a command running at server time [srv] sees under [key]. *)
Definition lookupKey (srv : Z) (key : string) (d : gmap string robj)
  : option robj :=
  expireIfNeeded srv key d !! key.

(** The score range [min, max], both ends inclusive. *)
Definition in_range (min max : Z) (p : string * Z) : Prop :=
  min ≤ p.2 ∧ p.2 ≤ max.

#[global] Instance in_range_dec min max p : Decision (in_range min max p).
Proof. unfold in_range. apply _. Defined.

(** [ZREMRANGEBYSCORE key min max]: drop the members whose score lies in the
    range; a sorted set that becomes empty is deleted with its key. *)
Definition ZREMRANGEBYSCORE (srv : Z) (key : string) (min max : Z) : Lua Z :=
  λ d,
  let d := expireIfNeeded srv key d in
  match d !! key with
  | None => (d, inr 0)
  | Some (RObj (VZSet zs) e) =>
      let keep := filter (λ p, ¬ in_range min max p) zs in
      let removed := Z.of_nat (size zs) - Z.of_nat (size keep) in
      if decide (keep = ∅) then (delete key d, inr removed)
      else (<[key := RObj (VZSet keep) e]> d, inr removed)
  | Some (RObj (VString _) _) => (d, inl WRONGTYPE)
  end.

(** [ZCARD key]: the number of members, 0 for a missing key. *)
Definition ZCARD (srv : Z) (key : string) : Lua Z := λ d,
  let d := expireIfNeeded srv key d in
  match d !! key with
  | None => (d, inr 0)
  | Some (RObj (VZSet zs) _) => (d, inr (Z.of_nat (size zs)))
  | Some (RObj (VString _) _) => (d, inl WRONGTYPE)
  end.

(** [ZADD key score member]: add the member, or rewrite the score of a member
    that is already there; replies with the number of new members. *)
Definition ZADD (srv : Z) (key : string) (score : Z) (member : string)
  : Lua Z := λ d,
  let d := expireIfNeeded srv key d in
  match d !! key with
  | None => (<[key := RObj (VZSet {[member := score]}) None]> d, inr 1)
  | Some (RObj (VZSet zs) e) =>
      (<[key := RObj (VZSet (<[member := score]> zs)) e]> d,
       inr (if zs !! member is Some _ then 0 else 1))
  | Some (RObj (VString _) _) => (d, inl WRONGTYPE)
  end.

(** [PEXPIRE key ms]: the key expires [ms] milliseconds from the server time;
    a deadline that is not in the future deletes the key at once. *)
Definition PEXPIRE (srv : Z) (key : string) (ms : Z) : Lua Z := λ d,
  let d := expireIfNeeded srv key d in
  match d !! key with
  | None => (d, inr 0)
  | Some (RObj v _) =>
      if bool_decide (srv + ms ≤ srv) then (delete key d, inr 1)
      else (<[key := RObj v (Some (srv + ms))]> d, inr 1)
  end.

(** The script of [slidingWindowScript], argument for argument.  [srv] is the
    server time at which the store evaluates it; the script body runs as one
    unit, so one time serves all four commands. *)
Definition slidingWindowScript (srv : Z) (KEYS1 : string)
    (ARGV1 ARGV2 ARGV3 : Z) (ARGV4 : string) : Lua Z :=
  let key := KEYS1 in
  let now := ARGV1 in
  let window := ARGV2 in
  let limit := ARGV3 in
  let clearBefore := now - window in
  call _ := ZREMRANGEBYSCORE srv key 0 clearBefore in
  call currentCount := ZCARD srv key in
  if bool_decide (currentCount < limit) then
    call _ := ZADD srv key now ARGV4 in
    call _ := PEXPIRE srv key window in
    ret 0
  else
    ret 1.

(** The sorted set under a key, as the script evaluated at [srv] finds it:
    empty when the key is missing or expired. *)
Definition History (srv : Z) (key : string) (d : gmap string robj)
  : gmap string Z :=
  match lookupKey srv key d with
  | Some (RObj (VZSet zs) _) => zs
  | _ => ∅
  end.

End Redis.

(** ** The limiter *)

Module Limiter.
Import Redis.

(** [limit] is a Go [int]; [window] a [time.Duration], in nanoseconds.  The
    client handle [rdb] is the keyspace threaded through the calls. *)
Record RateLimiter := { limit : Z; window : Z }.

Definition NewRateLimiter (limit window : Z) : RateLimiter :=
  {| limit := limit; window := window |}.

(** [Duration.Milliseconds]: integer division, truncated toward zero. *)
Definition Milliseconds (d : Z) : Z := d `quot` 1000000.

Definition Second : Z := 1000000000.

(** What one call meets outside the limiter: the two clock readings it takes,
    the server time at which the store evaluates the script, and what happens
    to the round trip. *)
Inductive transport :=
  | Delivered    (* the script runs and its reply arrives *)
  | RequestLost  (* the store is never reached *)
  | ReplyLost.   (* the script runs, the reply never arrives *)

Record call_env := CallEnv {
  unixMilli : Z;      (* time.Now().UnixMilli(), first reading  *)
  unixNano : Z;       (* time.Now().UnixNano(), second reading *)
  server_time : Z;
  link : transport
}.

#[global] Instance transport_eq_dec : EqDecision transport.
Proof. solve_decision. Defined.
#[global] Instance call_env_eq_dec : EqDecision call_env.
Proof. solve_decision. Defined.

Inductive goerr :=
  | ErrTransport
  | ErrRedis (e : error).

(** [fmt.Sprintf("%d-%d", a, b)]. *)
Definition Sprintf_d_d (a b : Z) : string :=
  pretty a +:+ "-" +:+ pretty b.

(** [slidingWindowScript.Run(ctx, rdb, []string{key}, args...).Int()]. *)
Definition Run (env : call_env) (key : string) (now window limit : Z)
    (requestID : string) (d : gmap string robj)
  : gmap string robj * (goerr + Z) :=
  match link env with
  | RequestLost => (d, inl ErrTransport)
  | ReplyLost =>
      ((slidingWindowScript (server_time env) key now window limit requestID d).1,
       inl ErrTransport)
  | Delivered =>
      match slidingWindowScript (server_time env) key now window limit requestID d with
      | (d', inr r) => (d', inr r)
      | (d', inl e) => (d', inl (ErrRedis e))
      end
  end.

Definition requestID (env : call_env) : string :=
  Sprintf_d_d (unixMilli env) (unixNano env).

Definition IsRequestAllowed (rl : RateLimiter) (env : call_env) (key : string)
    (d : gmap string robj) : gmap string robj * bool :=
  let now := unixMilli env in
  let window := Milliseconds (window rl) in
  let requestID := Sprintf_d_d now (unixNano env) in
  match Run env key now window (limit rl) requestID d with
  | (d', inl err) => (d', true)
  | (d', inr result) => (d', bool_decide (result = 0))
  end.

(** A sequence of calls on one key, threading the keyspace; the decisions come
    back in call order. *)
Fixpoint calls (rl : RateLimiter) (key : string) (envs : list call_env)
    (d : gmap string robj) : gmap string robj * list bool :=
  match envs with
  | [] => (d, [])
  | env :: envs =>
      let '(d1, b) := IsRequestAllowed rl env key d in
      let '(d2, bs) := calls rl key envs d1 in
      (d2, b :: bs)
  end.

End Limiter.

(** ** The script, one key at a time

    The script touches one key.  [key_transition] is what it does to the object
    under that key, [put] writes the outcome back; [script_local] proves that
    the script is exactly that. *)

Module Local.
Import Redis.

Definition evict (now window : Z) (zs : gmap string Z) : gmap string Z :=
  filter (λ p, ¬ in_range 0 (now - window) p) zs.

Definition put (key : string) (o : option robj) (d : gmap string robj)
  : gmap string robj :=
  match o with
  | Some v => <[key := v]> d
  | None => delete key d
  end.

Definition members (o : option robj) : gmap string Z :=
  match o with
  | Some (RObj (VZSet zs) _) => zs
  | _ => ∅
  end.

Definition key_transition (srv now window limit : Z) (id : string)
    (o : option robj) : option robj * (error + Z) :=
  match o with
  | Some (RObj (VString _) _) => (o, inl WRONGTYPE)
  | _ =>
      let keep := evict now window (members o) in
      if bool_decide (Z.of_nat (size keep) < limit) then
        (if bool_decide (window ≤ 0) then None
         else Some (RObj (VZSet (<[id := now]> keep)) (Some (srv + window))),
         inr 0)
      else
        (if decide (keep = ∅) then None
         else Some (RObj (VZSet keep) (o ≫= obj_expire)),
         inr 1)
  end.

(** The key after the first command of the script. *)
Definition swept (now window : Z) (o : option robj) : option robj :=
  match o with
  | Some (RObj (VString _) _) => o
  | _ => if decide (evict now window (members o) = ∅) then None
         else Some (RObj (VZSet (evict now window (members o))) (o ≫= obj_expire))
  end.

(** What the caller is told, given how the script ended. *)
Definition decision (r : error + Z) : bool :=
  match r with
  | inl _ => true
  | inr z => bool_decide (z = 0)
  end.

(** An object the lazy expiry of a command at [srv] leaves in place. *)
Definition live (srv : Z) (o : option robj) : Prop :=
  ∀ v, o = Some v → expired srv v = false.

(** No dash among the characters: what the digits of a numeral satisfy. *)
Fixpoint dashfree (s : string) : Prop :=
  match s with
  | EmptyString => True
  | String c r => c ≠ "-"%char ∧ dashfree r
  end.

End Local.

(** ** Runs, reachable keyspaces and the properties under study *)

Module Policy.
Import Redis Limiter Local.

(** Requests of several callers, each on its own key, served one after the
    other; every decision is tagged with its key. *)
Fixpoint serve (rl : RateLimiter) (reqs : list (string * call_env))
    (d : gmap string robj) : gmap string robj * list (string * bool) :=
  match reqs with
  | [] => (d, [])
  | (key, env) :: reqs =>
      let '(d1, b) := IsRequestAllowed rl env key d in
      let '(d2, bs) := serve rl reqs d1 in
      (d2, (key, b) :: bs)
  end.

Definition on_key (B : string) {A} (xs : list (string * A)) : list (string * A) :=
  filter (λ x, x.1 = B) xs.

(** The keyspaces a store can be in under one policy: it starts empty, the
    script is evaluated with any key, clock value and id, at any server time,
    and the store may expire a key whose deadline has passed. *)
Inductive reachable (limit window : Z) : gmap string robj → Prop :=
  | reach_empty : reachable limit window ∅
  | reach_eval d srv key now id :
      reachable limit window d →
      reachable limit window (slidingWindowScript srv key now window limit id d).1
  | reach_expire d srv key :
      reachable limit window d →
      reachable limit window (expireIfNeeded srv key d).

(** What the store keeps under a key of the limiter: a sorted set, never an
    empty one (a sorted set that loses its last member goes with its key). *)
Definition well_formed (d : gmap string robj) : Prop :=
  ∀ key o, d !! key = Some o → ∃ zs e, o = RObj (VZSet zs) e ∧ zs ≠ ∅.

(** The entries that count at instant [now]: timestamp [>= now - window]. *)
Definition in_window (now window : Z) (zs : gmap string Z) : gmap string Z :=
  filter (λ p, now - window ≤ p.2) zs.

Definition readings (env : call_env) : Z * Z := (unixMilli env, unixNano env).

Definition delivered (envs : list call_env) : Prop :=
  Forall (λ env, link env = Delivered) envs.

(** Calls that lie within one window of each other, on the callers' clock
    (the timestamps they send) and on the server's (the expiry it keeps). *)
Definition within_window (w : Z) (envs : list call_env) : Prop :=
  ∀ e e', e ∈ envs → e' ∈ envs →
    unixMilli e' - unixMilli e < w ∧ server_time e' - server_time e < w.

Definition admissions (bs : list bool) : nat := length (filter (λ b, b = true) bs).
Definition denials (bs : list bool) : nat := length (filter (λ b, b = false) bs).

(** The members a list of admitted calls leaves under the key, latest first. *)
Definition entries (adm : list call_env) : gmap string Z :=
  list_to_map ((λ env, (requestID env, unixMilli env)) <$> adm).

(** The key holds exactly the entries of the admitted calls [adm], and expires
    one window after one of them. *)
Definition holds_entries (key : string) (w : Z) (adm : list call_env)
    (d : gmap string robj) : Prop :=
  match adm with
  | [] => d !! key = None
  | _ => ∃ e0, e0 ∈ adm
           ∧ d !! key = Some (RObj (VZSet (entries adm)) (Some (server_time e0 + w)))
  end.

(** *** Properties in the specification's wording

    Five properties do not hold of the code as the specification words them.
    They are written down here in that wording; each is refuted below, next
    to what the code does instead. *)

(** Quota boundary, for any [N + 1] calls within one window. *)
Definition quota_boundary_any_calls : Prop :=
  ∀ (rl : RateLimiter) (N : nat) (key : string) (envs : list call_env)
    (d : gmap string robj),
    limit rl = Z.of_nat N → d !! key = None → length envs = S N →
    delivered envs → within_window (Milliseconds (window rl)) envs →
    (calls rl key envs d).2 = replicate N true ++ [false].


(** Limit zero denies whatever happens. *)
Definition zero_limit_denies_unconditionally : Prop :=
  ∀ (rl : RateLimiter) (env : call_env) (key : string) (d : gmap string robj),
    limit rl = 0 → (IsRequestAllowed rl env key d).2 = false.

(** The ids of any sequence of calls are pairwise distinct. *)
Definition request_ids_always_distinct : Prop :=
  ∀ envs : list call_env, NoDup (requestID <$> envs).

(** [M > N] simultaneous calls, in whatever order they arrive at the store. *)
Definition concurrent_quota_any_calls : Prop :=
  ∀ (rl : RateLimiter) (N : nat) (key : string) (envs arrival : list call_env)
    (d : gmap string robj),
    limit rl = Z.of_nat N → d !! key = None → (N < length envs)%nat →
    delivered envs → within_window (Milliseconds (window rl)) envs →
    arrival ≡ₚ envs →
    admissions (calls rl key arrival d).2 = N
    ∧ denials (calls rl key arrival d).2 = (length envs - N)%nat.

End Policy.

(** ** The HTTP layer

    [getIP], [RateLimitMiddleware] and [HelloWorldHandler] of the server, and
    the method [Middleware] of its single-file predecessor.  A request is its
    header map and remote address; of a response the status code and the body
    are kept, the response headers are left out. *)

Module Http.
Import Redis Limiter.

(** First and last position of a byte, as [bytealg.IndexByteString] and
    [bytealg.LastIndexByteString] report them ([None] for -1). *)
Fixpoint IndexByte (s : list ascii) (c : ascii) : option nat :=
  match s with
  | [] => None
  | x :: r => if decide (x = c) then Some 0%nat else S <$> IndexByte r c
  end.

Fixpoint LastIndexByte (s : list ascii) (c : ascii) : option nat :=
  match s with
  | [] => None
  | x :: r =>
      match LastIndexByte r c with
      | Some i => Some (S i)
      | None => if decide (x = c) then Some 0%nat else None
      end
  end.

(** [net.SplitHostPort]: host, port and the reason of the error, if any; on
    an error host and port are empty. *)
Definition SplitHostPort (hostport : string) : string * string * option string :=
  let s := String.list_ascii_of_string hostport in
  let addrErr (why : string) : string * string * option string :=
    ("", "", Some why) in
  match LastIndexByte s ":" with
  | None => addrErr "missing port in address"
  | Some i =>
      let finish (host : list ascii) (j k : nat) :=
        if IndexByte (drop j s) "[" is Some _ then
          addrErr "unexpected '[' in address"
        else if IndexByte (drop k s) "]" is Some _ then
          addrErr "unexpected ']' in address"
        else
          (String.string_of_list_ascii host,
           String.string_of_list_ascii (drop (S i) s), None) in
      if decide (s !! 0%nat = Some "["%char) then
        match IndexByte s "]" with
        | None => addrErr "missing ']' in address"
        | Some end_ =>
            if decide (S end_ = length s) then addrErr "missing port in address"
            else if decide (S end_ = i) then
              finish (take (end_ - 1) (drop 1 s)) 1%nat (S end_)
            else if decide (s !! S end_ = Some ":"%char) then
              addrErr "too many colons in address"
            else addrErr "missing port in address"
        end
      else
        let host := take i s in
        if IndexByte host ":" is Some _ then addrErr "too many colons in address"
        else finish host 0%nat 0%nat
  end.

(** [strings.Split(s, sep)] for a separator of one byte: the pieces between
    the separators, one more than there are separators. *)
Fixpoint Split (s : string) (sep : ascii) : list string :=
  match s with
  | EmptyString => [EmptyString]
  | String c r =>
      if decide (c = sep) then EmptyString :: Split r sep
      else match Split r sep with
           | x :: xs => String c x :: xs
           | [] => [String c EmptyString]
           end
  end.

Record Request := {
  Header : gmap string (list string);
  RemoteAddr : string
}.

(** [Header.Get] with a key in canonical form: the first value, or the empty
    string. *)
Definition Header_Get (h : gmap string (list string)) (key : string) : string :=
  match h !! key with
  | Some (v :: _) => v
  | _ => EmptyString
  end.

(** Index 0 of the slice [Split] returns always exists; the empty branch
    stands for the index panic. *)
Definition getIP (r : Request) : string :=
  let forwarded := Header_Get (Header r) "X-Forwarded-For" in
  if decide (forwarded ≠ EmptyString) then
    match Split forwarded "," with
    | x :: _ => x
    | [] => EmptyString
    end
  else
    let '(ip, _, _) := SplitHostPort (RemoteAddr r) in ip.

(** A response writer: the status code once it is written, and the body. *)
Record ResponseWriter := { status : option Z; body : string }.

Definition NewResponse : ResponseWriter := {| status := None; body := EmptyString |}.

Definition WriteHeader (code : Z) (w : ResponseWriter) : ResponseWriter :=
  match status w with
  | Some _ => w
  | None => {| status := Some code; body := body w |}
  end.

Definition Write (s : string) (w : ResponseWriter) : ResponseWriter :=
  let w := WriteHeader 200 w in
  {| status := status w; body := body w +:+ s |}.

Definition newline : string := String "010"%char EmptyString.

Definition Fprintln (w : ResponseWriter) (s : string) : ResponseWriter :=
  Write (s +:+ newline) w.

Definition StatusTooManyRequests : Z := 429.

(** [http.Error], as far as status and body go. *)
Definition Error (w : ResponseWriter) (error : string) (code : Z) : ResponseWriter :=
  Fprintln (WriteHeader code w) error.

(** The counter vector [httpRequestsTotal], by value of its label. *)
Definition Inc (label : string) (m : gmap string nat) : gmap string nat :=
  <[label := S (default 0%nat (m !! label))]> m.

Definition Count (label : string) (m : gmap string nat) : nat :=
  default 0%nat (m !! label).

(** What a request changes besides its response: the store and the counters. *)
Record server := { store : gmap string robj; httpRequestsTotal : gmap string nat }.

(** A handler, here one that does nothing but write its response. *)
Definition HandlerFunc : Type := ResponseWriter → Request → ResponseWriter.

Definition HelloWorldHandler : HandlerFunc := λ w r, Fprintln w "Hello, World!".

(** [RateLimitMiddleware(rl, next)], the handler it returns. *)
Definition RateLimitMiddleware (rl : RateLimiter) (next : HandlerFunc)
    (env : call_env) (w : ResponseWriter) (r : Request) (s : server)
  : server * ResponseWriter :=
  let key := "limit:" +:+ getIP r in
  let '(d, ok) := IsRequestAllowed rl env key (store s) in
  if negb ok then
    ({| store := d; httpRequestsTotal := Inc "blocked" (httpRequestsTotal s) |},
     Error w "Too Many Requests" StatusTooManyRequests)
  else
    ({| store := d; httpRequestsTotal := Inc "allowed" (httpRequestsTotal s) |},
     next w r).

(** [rl.Middleware(next)] of the earlier version: the remote address alone
    names the caller. *)
Definition Middleware (rl : RateLimiter) (next : HandlerFunc)
    (env : call_env) (w : ResponseWriter) (r : Request) (s : server)
  : server * ResponseWriter :=
  let '(ip, _, _) := SplitHostPort (RemoteAddr r) in
  let key := "limit:" +:+ ip in
  let '(d, ok) := IsRequestAllowed rl env key (store s) in
  if negb ok then
    ({| store := d; httpRequestsTotal := Inc "blocked" (httpRequestsTotal s) |},
     Error w "Rate limit exceeded" StatusTooManyRequests)
  else
    ({| store := d; httpRequestsTotal := Inc "allowed" (httpRequestsTotal s) |},
     next w r).

(** Requests served one after the other, each with a response of its own. *)
Fixpoint ServeAll (rl : RateLimiter) (next : HandlerFunc)
    (reqs : list (call_env * Request)) (s : server)
  : server * list ResponseWriter :=
  match reqs with
  | [] => (s, [])
  | (env, r) :: reqs =>
      let '(s1, w) := RateLimitMiddleware rl next env NewResponse r s in
      let '(s2, ws) := ServeAll rl next reqs s1 in
      (s2, w :: ws)
  end.

(** The key each request is counted under. *)
Definition keyed (reqs : list (call_env * Request)) : list (string * call_env) :=
  (λ p, ("limit:" +:+ getIP p.2, p.1)) <$> reqs.

(** A host or port without the three bytes [SplitHostPort] gives a meaning
    to: colon and square brackets. *)
Definition plain (s : string) : Prop :=
  Forall (λ c, c ≠ ":"%char ∧ c ≠ "["%char ∧ c ≠ "]"%char)
    (String.list_ascii_of_string s).

Definition bracket_free (s : string) : Prop :=
  Forall (λ c, c ≠ "["%char ∧ c ≠ "]"%char) (String.list_ascii_of_string s).

(** The response of a request that went through, and of one that did not. *)
Definition response (next : HandlerFunc) (p : call_env * Request) (ok : bool)
  : ResponseWriter :=
  if ok then next NewResponse p.2
  else Error NewResponse "Too Many Requests" StatusTooManyRequests.

End Http.

Import Redis Limiter Local Policy.

(** ** The commands and the script under one key *)

Section script_facts.
Implicit Types (d : gmap string robj) (key id : string) (zs : gmap string Z).
Implicit Types (srv now window limit : Z).

Lemma expireIfNeeded_put srv key d :
  expireIfNeeded srv key d = put key (lookupKey srv key d) d.
Proof.
  unfold lookupKey, expireIfNeeded.
  destruct (d !! key) as [o|] eqn:Hk; simpl.
  - destruct (expired srv o); simpl.
    + by rewrite lookup_delete_eq.
    + rewrite Hk. simpl. by rewrite insert_id.
  - rewrite Hk. simpl. by rewrite delete_id.
Qed.

Lemma expireIfNeeded_idem srv key d :
  expireIfNeeded srv key (expireIfNeeded srv key d) = expireIfNeeded srv key d.
Proof.
  unfold expireIfNeeded at 2 3.
  destruct (d !! key) as [o|] eqn:Hk.
  - destruct (expired srv o) eqn:He.
    + unfold expireIfNeeded. by rewrite lookup_delete_eq.
    + unfold expireIfNeeded. by rewrite Hk, He.
  - unfold expireIfNeeded. by rewrite Hk.
Qed.

Lemma lookupKey_Some srv key d o :
  lookupKey srv key d = Some o → d !! key = Some o ∧ expired srv o = false.
Proof.
  unfold lookupKey, expireIfNeeded.
  destruct (d !! key) as [o'|] eqn:Hk; [|by rewrite Hk].
  destruct (expired srv o') eqn:He.
  - by rewrite lookup_delete_eq.
  - rewrite Hk. by intros [= ->].
Qed.

Lemma lookupKey_fresh srv key d : d !! key = None → lookupKey srv key d = None.
Proof. intros Hk. unfold lookupKey, expireIfNeeded. by rewrite Hk. Qed.

Lemma lookupKey_live srv key d o :
  d !! key = Some o → expired srv o = false → lookupKey srv key d = Some o.
Proof. intros Hk He. unfold lookupKey, expireIfNeeded. by rewrite Hk, He. Qed.

Lemma put_lookup key o d : put key o d !! key = o.
Proof.
  destruct o; simpl; [apply lookup_insert_eq | apply lookup_delete_eq].
Qed.

Lemma put_lookup_ne key key' o d : key ≠ key' → put key o d !! key' = d !! key'.
Proof.
  intros. destruct o; simpl; [by apply lookup_insert_ne | by apply lookup_delete_ne].
Qed.

Lemma put_put key o o' d : put key o' (put key o d) = put key o' d.
Proof.
  destruct o, o'; simpl.
  - apply insert_insert_eq.
  - apply delete_insert_eq.
  - apply insert_delete_eq.
  - apply delete_delete_eq.
Qed.

Lemma lookupKey_is_live srv key d : live srv (lookupKey srv key d).
Proof. intros v Hv. by apply lookupKey_Some in Hv as [_ ?]. Qed.

Lemma expireIfNeeded_live srv key o d :
  live srv o → expireIfNeeded srv key (put key o d) = put key o d.
Proof.
  intros Hl. unfold expireIfNeeded. rewrite put_lookup.
  destruct o as [v|]; [|done]. by rewrite (Hl v eq_refl).
Qed.

Lemma ZREMRANGEBYSCORE_put srv key mn mx o d :
  live srv o →
  ZREMRANGEBYSCORE srv key mn mx (put key o d) =
    match o with
    | None => (put key None d, inr 0)
    | Some (RObj (VZSet zs) e) =>
        let keep := filter (λ p, ¬ in_range mn mx p) zs in
        (put key (if decide (keep = ∅) then None else Some (RObj (VZSet keep) e)) d,
         inr (Z.of_nat (size zs) - Z.of_nat (size keep)))
    | Some (RObj (VString _) _) => (put key o d, inl WRONGTYPE)
    end.
Proof.
  intros Hl. unfold ZREMRANGEBYSCORE.
  rewrite expireIfNeeded_live, put_lookup by done.
  destruct o as [[[zs|s] e]|]; [|done..].
  cbv zeta. destruct (decide (filter _ zs = ∅)).
  - f_equal. exact (put_put key _ None d).
  - f_equal. exact (put_put key _ (Some _) d).
Qed.

Lemma ZCARD_put srv key o d :
  live srv o →
  ZCARD srv key (put key o d) =
    (put key o d,
     match o with
     | None => inr 0
     | Some (RObj (VZSet zs) _) => inr (Z.of_nat (size zs))
     | Some (RObj (VString _) _) => inl WRONGTYPE
     end).
Proof.
  intros Hl. unfold ZCARD. rewrite expireIfNeeded_live, put_lookup by done.
  by destruct o as [[[zs|s] e]|].
Qed.

Lemma ZADD_put srv key score member o d :
  live srv o →
  ZADD srv key score member (put key o d) =
    match o with
    | None => (put key (Some (RObj (VZSet {[member := score]}) None)) d, inr 1)
    | Some (RObj (VZSet zs) e) =>
        (put key (Some (RObj (VZSet (<[member := score]> zs)) e)) d,
         inr (if zs !! member is Some _ then 0 else 1))
    | Some (RObj (VString _) _) => (put key o d, inl WRONGTYPE)
    end.
Proof.
  intros Hl. unfold ZADD. rewrite expireIfNeeded_live, put_lookup by done.
  destruct o as [[[zs|s] e]|]; [|done|].
  - f_equal. exact (put_put key _ (Some _) d).
  - f_equal. exact (put_put key _ (Some _) d).
Qed.

Lemma PEXPIRE_put srv key ms o d :
  live srv o →
  PEXPIRE srv key ms (put key o d) =
    match o with
    | None => (put key None d, inr 0)
    | Some (RObj v _) =>
        (put key (if bool_decide (ms ≤ 0) then None
                  else Some (RObj v (Some (srv + ms)))) d, inr 1)
    end.
Proof.
  intros Hl. unfold PEXPIRE. rewrite expireIfNeeded_live, put_lookup by done.
  destruct o as [[v e]|]; [|done].
  replace (bool_decide (srv + ms ≤ srv)) with (bool_decide (ms ≤ 0))
    by (apply bool_decide_ext; lia).
  case_bool_decide.
  - f_equal. exact (put_put key _ None d).
  - f_equal. exact (put_put key _ (Some _) d).
Qed.

Lemma ZREMRANGEBYSCORE_expire srv key mn mx d :
  ZREMRANGEBYSCORE srv key mn mx d =
  ZREMRANGEBYSCORE srv key mn mx (put key (lookupKey srv key d) d).
Proof.
  rewrite <- expireIfNeeded_put. unfold ZREMRANGEBYSCORE.
  by rewrite expireIfNeeded_idem.
Qed.

Lemma live_None srv : live srv None.
Proof. by intros v. Qed.

Lemma live_same_expiry srv v v' e :
  live srv (Some (RObj v e)) → live srv (Some (RObj v' e)).
Proof. intros Hl o [= <-]. exact (Hl _ eq_refl). Qed.

Lemma live_no_expiry srv v : live srv (Some (RObj v None)).
Proof. by intros o [= <-]. Qed.

(** The script is [key_transition] applied under its key. *)
Lemma script_local srv key now window limit id d :
  slidingWindowScript srv key now window limit id d =
    let r := key_transition srv now window limit id (lookupKey srv key d) in
    (put key r.1 d, r.2).
Proof.
  pose proof (lookupKey_is_live srv key d) as Hl.
  unfold slidingWindowScript, bind, ret.
  rewrite ZREMRANGEBYSCORE_expire, ZREMRANGEBYSCORE_put by done.
  destruct (lookupKey srv key d) as [[[zs|s] e]|]; cbn [key_transition members].
  - cbv zeta. fold (evict now window zs).
    destruct (decide (evict now window zs = ∅)) as [Hemp|Hne].
    + rewrite ZCARD_put by apply live_None. rewrite Hemp, map_size_empty.
      change (Z.of_nat 0) with 0.
      case_bool_decide; [|done].
      rewrite ZADD_put by apply live_None.
      rewrite PEXPIRE_put by apply live_no_expiry.
      rewrite insert_empty. by case_bool_decide.
    + rewrite ZCARD_put by (by eapply live_same_expiry).
      case_bool_decide; [|done].
      rewrite ZADD_put by (by eapply live_same_expiry).
      rewrite PEXPIRE_put by (by eapply live_same_expiry).
      by case_bool_decide.
  - done.
  - unfold evict. rewrite map_filter_empty, map_size_empty.
    change (Z.of_nat 0) with 0.
    rewrite ZCARD_put by apply live_None.
    case_bool_decide; [|by rewrite decide_True].
    rewrite ZADD_put by apply live_None.
    rewrite PEXPIRE_put by apply live_no_expiry.
    rewrite insert_empty. by case_bool_decide.
Qed.

End script_facts.

(** ** The limiter's call, in terms of the key it touches *)

Section call_facts.
Implicit Types (d : gmap string robj) (key id : string) (rl : RateLimiter).
Implicit Types (env : call_env).

Lemma IsRequestAllowed_delivered rl env key d :
  link env = Delivered →
  IsRequestAllowed rl env key d =
    let r := key_transition (server_time env) (unixMilli env)
               (Milliseconds (window rl)) (limit rl) (requestID env)
               (lookupKey (server_time env) key d) in
    (put key r.1 d, decision r.2).
Proof.
  intros Hl. unfold IsRequestAllowed, Run. rewrite Hl.
  fold (requestID env). rewrite script_local. cbv zeta.
  by destruct (key_transition _ _ _ _ _ _) as [o [e|z]].
Qed.

Lemma IsRequestAllowed_failed rl env key d err :
  (Run env key (unixMilli env) (Milliseconds (window rl)) (limit rl)
     (requestID env) d).2 = inl err →
  (IsRequestAllowed rl env key d).2 = true.
Proof.
  unfold IsRequestAllowed. fold (requestID env).
  by destruct (Run _ _ _ _ _ _ _) as [d' [e|z]].
Qed.

Lemma IsRequestAllowed_replied rl env key d z :
  (Run env key (unixMilli env) (Milliseconds (window rl)) (limit rl)
     (requestID env) d).2 = inr z →
  link env = Delivered
  ∧ (slidingWindowScript (server_time env) key (unixMilli env)
       (Milliseconds (window rl)) (limit rl) (requestID env) d).2 = inr z
  ∧ IsRequestAllowed rl env key d =
      ((slidingWindowScript (server_time env) key (unixMilli env)
          (Milliseconds (window rl)) (limit rl) (requestID env) d).1,
       bool_decide (z = 0)).
Proof.
  unfold IsRequestAllowed, Run. fold (requestID env).
  destruct (link env); [|done..].
  destruct (slidingWindowScript _ _ _ _ _ _ _) as [d' [e|z']]; [done|].
  by intros [= ->].
Qed.

(** With a limit that is not positive the count check never passes. *)
Lemma key_transition_nonpositive srv now window limit id o :
  limit ≤ 0 →
  key_transition srv now window limit id o = key_transition srv now window 0 id o.
Proof.
  intros Hl. unfold key_transition.
  destruct o as [[[zs|s] e]|]; [|done|].
  - rewrite !bool_decide_eq_false_2 by lia. done.
  - rewrite !bool_decide_eq_false_2 by lia. done.
Qed.

Lemma key_transition_zero srv now window id o z :
  (key_transition srv now window 0 id o).2 = inr z → z = 1.
Proof.
  unfold key_transition.
  destruct o as [[[zs|s] e]|]; [|done|].
  - rewrite bool_decide_eq_false_2 by lia. by intros [= <-].
  - rewrite bool_decide_eq_false_2 by lia. by intros [= <-].
Qed.

End call_facts.

(** ** What a denial does to the key *)

Section denial_facts.
Implicit Types (d : gmap string robj) (key id : string) (o : option robj).
Implicit Types (srv now window limit : Z).

Lemma History_members srv key d :
  History srv key d = members (lookupKey srv key d).
Proof. done. Qed.

Lemma lookupKey_put srv key o d :
  live srv o → lookupKey srv key (put key o d) = o.
Proof.
  intros Hl. unfold lookupKey. by rewrite expireIfNeeded_live, put_lookup.
Qed.

Lemma evict_subseteq now window (zs : gmap string Z) : evict now window zs ⊆ zs.
Proof. apply map_filter_subseteq. Qed.


Lemma evict_none_stale now window (zs : gmap string Z) :
  (∀ m s, zs !! m = Some s → ¬ (0 ≤ s ∧ s ≤ now - window)) →
  evict now window zs = zs.
Proof.
  intros Hf. unfold evict. apply map_filter_id. intros m s Hm. by apply Hf in Hm.
Qed.


Lemma swept_live srv now window o : live srv o → live srv (swept now window o).
Proof.
  intros Hl. destruct o as [[[zs|s] e]|]; simpl; [|done|].
  - destruct (decide _); [apply live_None|]. by eapply live_same_expiry.
  - destruct (decide _); [apply live_None|]. apply live_no_expiry.
Qed.

Lemma members_swept now window o :
  members (swept now window o) = evict now window (members o).
Proof.
  destruct o as [[[zs|s] e]|]; simpl.
  - by destruct (decide _) as [->|].
  - unfold evict. by rewrite map_filter_empty.
  - by destruct (decide _) as [->|].
Qed.

Lemma key_transition_denied srv now window limit id o z :
  (key_transition srv now window limit id o).2 = inr z → z ≠ 0 →
  z = 1
  ∧ limit ≤ Z.of_nat (size (evict now window (members o)))
  ∧ (key_transition srv now window limit id o).1 = swept now window o.
Proof.
  unfold key_transition, swept.
  destruct o as [[[zs|s] e]|]; [|done|]; case_bool_decide; simpl in *.
  - by intros [= <-].
  - intros [= <-] _. split; [done|]. split; [lia|done].
  - by intros [= <-].
  - intros [= <-] _. split; [done|]. split; [lia|done].
Qed.


End denial_facts.

(** ** Failing open, and limits that admit nothing *)

Section fail_open_and_closed_limits.
Implicit Types (d : gmap string robj) (key : string) (rl : RateLimiter).
Implicit Types (env : call_env).

(** Each way the round trip can go wrong reaches the caller as an error. *)
Lemma Run_transport_error env key now window limit id d :
  link env ≠ Delivered →
  (Run env key now window limit id d).2 = inl ErrTransport.
Proof. unfold Run. by destruct (link env). Qed.

Lemma Run_wrongtype env key now window limit id d s e :
  link env = Delivered →
  lookupKey (server_time env) key d = Some (RObj (VString s) e) →
  (Run env key now window limit id d).2 = inl (ErrRedis WRONGTYPE).
Proof.
  intros Hl Hk. unfold Run. rewrite Hl, script_local, Hk. done.
Qed.

(** C3. Whenever the store invocation made by [IsRequestAllowed] ends in an
    error, of whatever kind, the call returns [true], whatever the key
    holds; the result is a bare boolean, no error comes with it. *)
Theorem fail_open rl env key d :
  (∃ err, (Run env key (unixMilli env) (Milliseconds (window rl)) (limit rl)
             (requestID env) d).2 = inl err) →
  (IsRequestAllowed rl env key d).2 = true.
Proof. intros [err Herr]. by eapply IsRequestAllowed_failed. Qed.

Lemma fail_open_witness :
  (IsRequestAllowed (NewRateLimiter 0 Second)
     (CallEnv 1000 1000000007 1000 ReplyLost) "limit:127.0.0.1"
     {["limit:127.0.0.1" := RObj (VZSet {["999-999000001" := 999]}) (Some 1999)]}).2
  = true.
Proof. apply fail_open. exists ErrTransport. reflexivity. Defined.

(** C5, as worded, fails: with limit 0 and the store out of reach the call
    is allowed. *)
Lemma zero_limit_fails_open : ¬ zero_limit_denies_unconditionally.
Proof.
  intros H.
  specialize (H (NewRateLimiter 0 Second)
                (CallEnv 1000 1000000007 1000 RequestLost) "limit:127.0.0.1" ∅ eq_refl).
  vm_compute in H. discriminate H.
Qed.

(** C5, as it holds. With [limit = 0], every call whose store invocation
    comes back with a reply returns [false], for every key and whatever the
    key's History is. *)
Theorem zero_limit_denies rl env key d z :
  limit rl = 0 →
  (Run env key (unixMilli env) (Milliseconds (window rl)) (limit rl)
     (requestID env) d).2 = inr z →
  (IsRequestAllowed rl env key d).2 = false.
Proof.
  intros H0 Hr. apply IsRequestAllowed_replied in Hr as (_ & Hs & ->).
  rewrite script_local, H0 in Hs. cbv zeta in Hs. simpl in Hs.
  apply key_transition_zero in Hs as ->. done.
Qed.

Lemma zero_limit_denies_witness :
  (IsRequestAllowed (NewRateLimiter 0 Second)
     (CallEnv 1000 1000000007 1000 Delivered) "limit:127.0.0.1" ∅).2 = false.
Proof. by apply (zero_limit_denies _ _ _ _ 1). Defined.

(** C10. With a negative limit, every call whose store invocation comes
    back with a reply is denied, the call does exactly what it does under
    limit 0, and nothing is inserted: the History afterwards is the History
    before without its stale entries. *)
Theorem negative_limit_denies rl env key d z :
  limit rl < 0 →
  (Run env key (unixMilli env) (Milliseconds (window rl)) (limit rl)
     (requestID env) d).2 = inr z →
  (IsRequestAllowed rl env key d).2 = false
  ∧ IsRequestAllowed rl env key d =
      IsRequestAllowed (NewRateLimiter 0 (window rl)) env key d
  ∧ History (server_time env) key (IsRequestAllowed rl env key d).1 =
      evict (unixMilli env) (Milliseconds (window rl))
        (History (server_time env) key d)
  ∧ History (server_time env) key (IsRequestAllowed rl env key d).1 ⊆
      History (server_time env) key d.
Proof.
  intros Hneg Hr. apply IsRequestAllowed_replied in Hr as (Hl & Hs & Heq).
  rewrite script_local in Hs. cbv zeta in Hs. simpl in Hs.
  rewrite key_transition_nonpositive in Hs by lia.
  pose proof (key_transition_zero _ _ _ _ _ _ Hs) as ->.
  assert (IsRequestAllowed rl env key d =
          IsRequestAllowed (NewRateLimiter 0 (window rl)) env key d) as Hsame.
  { rewrite !IsRequestAllowed_delivered by done. cbv zeta. simpl.
    by rewrite key_transition_nonpositive by lia. }
  assert (History (server_time env) key (IsRequestAllowed rl env key d).1 =
          evict (unixMilli env) (Milliseconds (window rl))
            (History (server_time env) key d)) as Hhist.
  { rewrite Hsame, IsRequestAllowed_delivered by done. cbv zeta. simpl.
    apply key_transition_denied in Hs as (_ & _ & ->); [|done].
    rewrite !History_members, lookupKey_put
      by apply swept_live, lookupKey_is_live.
    apply members_swept. }
  split; [by rewrite Heq|]. split; [done|]. split; [done|].
  rewrite Hhist. apply evict_subseteq.
Qed.

Lemma negative_limit_denies_witness :
  let rl := NewRateLimiter (-3) Second in
  let env := CallEnv 3000 3000000007 3000 Delivered in
  let d : gmap string robj :=
    {["limit:127.0.0.1" := RObj (VZSet {["1500-1500000001" := 1500;
                                         "2500-2500000001" := 2500]}) None]} in
  (IsRequestAllowed rl env "limit:127.0.0.1" d).2 = false
  ∧ History 3000 "limit:127.0.0.1" (IsRequestAllowed rl env "limit:127.0.0.1" d).1
    = {["2500-2500000001" := 2500]}.
Proof.
  intros rl env d.
  destruct (negative_limit_denies rl env "limit:127.0.0.1" d 1)
    as (Hdec & _ & Hhist & _); [by vm_compute | by vm_compute |].
  split; [exact Hdec|]. etrans; [exact Hhist|]. by vm_compute.
Defined.

End fail_open_and_closed_limits.

(** ** Keys do not interact *)

Section isolation.
Implicit Types (d : gmap string robj) (key A B : string) (rl : RateLimiter).
Implicit Types (env : call_env) (reqs : list (string * call_env)).

Lemma lookupKey_ext srv key d1 d2 :
  d1 !! key = d2 !! key → lookupKey srv key d1 = lookupKey srv key d2.
Proof.
  intros Hk. unfold lookupKey, expireIfNeeded. rewrite <- Hk.
  destruct (d1 !! key) as [o|] eqn:Ho; [|by rewrite Ho, <- Hk].
  destruct (expired srv o); [by rewrite !lookup_delete_eq|].
  by rewrite Ho, <- Hk.
Qed.

(** One call, whatever becomes of its round trip. *)
Lemma IsRequestAllowed_local rl env key d :
  IsRequestAllowed rl env key d =
    let r := key_transition (server_time env) (unixMilli env)
               (Milliseconds (window rl)) (limit rl) (requestID env)
               (lookupKey (server_time env) key d) in
    match link env with
    | Delivered => (put key r.1 d, decision r.2)
    | RequestLost => (d, true)
    | ReplyLost => (put key r.1 d, true)
    end.
Proof.
  destruct (link env) eqn:Hl.
  - by rewrite IsRequestAllowed_delivered.
  - unfold IsRequestAllowed, Run. by rewrite Hl.
  - unfold IsRequestAllowed, Run. rewrite Hl. fold (requestID env).
    by rewrite script_local.
Qed.

Lemma IsRequestAllowed_frame rl env A B d :
  A ≠ B → (IsRequestAllowed rl env A d).1 !! B = d !! B.
Proof.
  intros Hne. rewrite IsRequestAllowed_local. cbv zeta.
  destruct (link env); simpl; [|done|]; by rewrite put_lookup_ne.
Qed.

Lemma IsRequestAllowed_own_key rl env B d1 d2 :
  d1 !! B = d2 !! B →
  (IsRequestAllowed rl env B d1).2 = (IsRequestAllowed rl env B d2).2
  ∧ (IsRequestAllowed rl env B d1).1 !! B = (IsRequestAllowed rl env B d2).1 !! B.
Proof.
  intros Hk. rewrite !IsRequestAllowed_local. cbv zeta.
  rewrite (lookupKey_ext _ B d1 d2 Hk).
  destruct (link env); simpl; [|done|]; by rewrite !put_lookup.
Qed.

Lemma serve_cons rl key env reqs d :
  serve rl ((key, env) :: reqs) d =
    ((serve rl reqs (IsRequestAllowed rl env key d).1).1,
     (key, (IsRequestAllowed rl env key d).2)
       :: (serve rl reqs (IsRequestAllowed rl env key d).1).2).
Proof.
  simpl. destruct (IsRequestAllowed rl env key d) as [d1 b]. simpl.
  by destruct (serve rl reqs d1).
Qed.

(** A run, seen from key [B], is the run of the requests on [B] alone. *)
Lemma serve_on_key rl B reqs :
  ∀ d d', d !! B = d' !! B →
    on_key B (serve rl reqs d).2 = (serve rl (on_key B reqs) d').2
    ∧ (serve rl reqs d).1 !! B = (serve rl (on_key B reqs) d').1 !! B.
Proof.
  induction reqs as [|[key env] reqs IH]; intros d d' Hk; [done|].
  rewrite serve_cons. unfold on_key in *. simpl.
  destruct (decide (key = B)) as [->|Hne].
  - rewrite !filter_cons_True by done. rewrite serve_cons. simpl.
    destruct (IsRequestAllowed_own_key rl env B d d' Hk) as [Hb Hd].
    destruct (IH _ _ Hd) as [IHb IHd]. by rewrite Hb, IHb, IHd.
  - rewrite !filter_cons_False by done.
    apply IH. by rewrite IsRequestAllowed_frame.
Qed.

(** C8. Two runs whose keyspaces agree on key [B] and whose requests on
    [B] are the same, however their other keys and their requests on other
    keys differ, give the same decisions on [B] and leave the same object
    under [B]; in particular one call on [B] decides from what [B] holds,
    and a call on another key leaves [B] alone. *)
Theorem key_isolation rl B reqs1 reqs2 d1 d2 :
  d1 !! B = d2 !! B →
  on_key B reqs1 = on_key B reqs2 →
  on_key B (serve rl reqs1 d1).2 = on_key B (serve rl reqs2 d2).2
  ∧ (serve rl reqs1 d1).1 !! B = (serve rl reqs2 d2).1 !! B
  ∧ (∀ env, (IsRequestAllowed rl env B d1).2 = (IsRequestAllowed rl env B d2).2)
  ∧ (∀ env A, A ≠ B → (IsRequestAllowed rl env A d1).1 !! B = d1 !! B).
Proof.
  intros Hk Hreqs.
  destruct (serve_on_key rl B reqs1 d1 d1 eq_refl) as [Hb1 Hd1].
  destruct (serve_on_key rl B reqs2 d2 d1 (eq_sym Hk)) as [Hb2 Hd2].
  split; [by rewrite Hb1, Hb2, Hreqs|].
  split; [by rewrite Hd1, Hd2, Hreqs|].
  split.
  - intros env. by apply IsRequestAllowed_own_key.
  - intros env A. apply IsRequestAllowed_frame.
Qed.

Lemma key_isolation_witness :
  let rl := NewRateLimiter 1 Second in
  let at_ t := CallEnv t (t * 1000000 + 7) t Delivered in
  let reqs1 := [("B", at_ 1000); ("A", at_ 1001); ("B", at_ 1002)] in
  let reqs2 := [("C", at_ 900); ("B", at_ 1000); ("B", at_ 1002); ("C", at_ 1003)] in
  let d2 : gmap string robj := {["A" := RObj (VZSet {["x" := 950]}) None]} in
  on_key "B" (serve rl reqs1 ∅).2 = on_key "B" (serve rl reqs2 d2).2
  ∧ (serve rl reqs1 ∅).1 !! "B" = (serve rl reqs2 d2).1 !! "B".
Proof.
  intros rl at_ reqs1 reqs2 d2.
  destruct (key_isolation rl "B" reqs1 reqs2 ∅ d2) as (Hb & Hd & _);
    [by vm_compute | by vm_compute | by split].
Defined.

End isolation.

(** ** The size of a History under one policy *)

Section bound.
Implicit Types (d : gmap string robj) (key id : string) (o : option robj).
Implicit Types (srv now window limit : Z).

Lemma members_lookupKey_size srv key d :
  (size (members (lookupKey srv key d)) ≤ size (members (d !! key)))%nat.
Proof.
  destruct (lookupKey srv key d) as [v|] eqn:Hl.
  - apply lookupKey_Some in Hl as [-> _]. done.
  - simpl. rewrite map_size_empty. lia.
Qed.

Lemma key_transition_bound srv now window limit id o :
  Z.of_nat (size (members o)) ≤ Z.max 0 limit →
  Z.of_nat (size (members (key_transition srv now window limit id o).1))
    ≤ Z.max 0 limit.
Proof.
  intros Hb.
  assert (size (evict now window (members o)) ≤ size (members o))%nat as Hev
    by apply map_subseteq_size, evict_subseteq.
  unfold key_transition.
  destruct o as [[[zs|s] e]|]; [|done|]; simpl in *.
  - case_bool_decide as Hc; simpl.
    + case_bool_decide; simpl; [rewrite map_size_empty; lia|].
      pose proof (map_size_insert id now (evict now window zs)) as Hi.
      destruct (evict now window zs !! id); unfold Datatypes.id in Hi; lia.
    + destruct (decide _); simpl; [rewrite map_size_empty; lia|lia].
  - case_bool_decide as Hc; simpl.
    + case_bool_decide; simpl; [rewrite map_size_empty; lia|].
      pose proof (map_size_insert id now (evict now window ∅)) as Hi.
      destruct (evict now window ∅ !! id); unfold Datatypes.id in Hi; lia.
    + destruct (decide _); simpl; [rewrite map_size_empty; lia|lia].
Qed.

(** Under one policy no key ever holds more than [limit] entries. *)
Lemma reachable_size limit window d :
  reachable limit window d →
  ∀ key, Z.of_nat (size (members (d !! key))) ≤ Z.max 0 limit.
Proof.
  induction 1 as [|d srv key' now id _ IH|d srv key' _ IH]; intros key.
  - rewrite lookup_empty. simpl. rewrite map_size_empty. lia.
  - rewrite script_local. cbv zeta. simpl.
    destruct (decide (key' = key)) as [->|Hne].
    + rewrite put_lookup. apply key_transition_bound.
      pose proof (members_lookupKey_size srv key d). specialize (IH key). lia.
    + rewrite put_lookup_ne by done. apply IH.
  - rewrite expireIfNeeded_put.
    destruct (decide (key' = key)) as [->|Hne].
    + rewrite put_lookup.
      pose proof (members_lookupKey_size srv key d). specialize (IH key). lia.
    + rewrite put_lookup_ne by done. apply IH.
Qed.

Lemma key_transition_well_formed srv now window limit id o :
  (∀ v, o = Some v → ∃ zs e, v = RObj (VZSet zs) e ∧ zs ≠ ∅) →
  ∀ v, (key_transition srv now window limit id o).1 = Some v →
       ∃ zs e, v = RObj (VZSet zs) e ∧ zs ≠ ∅.
Proof.
  intros Hwf v. unfold key_transition.
  destruct o as [[[zs|s] e]|].
  - case_bool_decide; simpl.
    + case_bool_decide; [done|]. intros [= <-].
      eexists _, _. split; [done|]. apply insert_non_empty.
    + destruct (decide _); [done|]. intros [= <-]. by eexists _, _.
  - destruct (Hwf _ eq_refl) as (zs & e' & [=] & _).
  - case_bool_decide; simpl.
    + case_bool_decide; [done|]. intros [= <-].
      eexists _, _. split; [done|]. apply insert_non_empty.
    + destruct (decide _) as [|Hne]; [done|].
      destruct Hne. apply map_filter_empty.
Qed.

(** Under one policy the store holds nothing but non-empty sorted sets. *)
Lemma reachable_well_formed limit window d :
  reachable limit window d → well_formed d.
Proof.
  induction 1 as [|d srv key' now id _ IH|d srv key' _ IH]; intros key o.
  - by rewrite lookup_empty.
  - rewrite script_local. cbv zeta. simpl.
    destruct (decide (key' = key)) as [->|Hne].
    + rewrite put_lookup. apply key_transition_well_formed.
      intros v Hv. apply lookupKey_Some in Hv as [Hv _]. by apply (IH key).
    + rewrite put_lookup_ne by done. apply IH.
  - rewrite expireIfNeeded_put.
    destruct (decide (key' = key)) as [->|Hne].
    + rewrite put_lookup. intros Hv. apply lookupKey_Some in Hv as [Hv _].
      by apply (IH key).
    + rewrite put_lookup_ne by done. apply IH.
Qed.

(** The limiter's calls stay within the keyspaces of its policy. *)
Lemma IsRequestAllowed_reachable (rl : RateLimiter) env key d :
  reachable (Limiter.limit rl) (Milliseconds (Limiter.window rl)) d →
  reachable (Limiter.limit rl) (Milliseconds (Limiter.window rl))
    (IsRequestAllowed rl env key d).1.
Proof.
  intros Hr. unfold IsRequestAllowed, Run.
  destruct (link env); simpl.
  - pose proof (reach_eval _ _ d (server_time env) key (unixMilli env)
                  (Sprintf_d_d (unixMilli env) (unixNano env)) Hr) as Hr'.
    by destruct (slidingWindowScript _ _ _ _ _ _ _) as [d' [err|z]].
  - done.
  - by apply reach_eval.
Qed.

Lemma calls_cons (rl : RateLimiter) key env envs d :
  calls rl key (env :: envs) d =
    ((calls rl key envs (IsRequestAllowed rl env key d).1).1,
     (IsRequestAllowed rl env key d).2
       :: (calls rl key envs (IsRequestAllowed rl env key d).1).2).
Proof.
  simpl. destruct (IsRequestAllowed rl env key d) as [d1 b]. simpl.
  by destruct (calls rl key envs d1).
Qed.

Lemma serve_reachable (rl : RateLimiter) reqs :
  ∀ d, reachable (Limiter.limit rl) (Milliseconds (Limiter.window rl)) d →
       reachable (Limiter.limit rl) (Milliseconds (Limiter.window rl))
         (serve rl reqs d).1.
Proof.
  induction reqs as [|[key env] reqs IH]; intros d Hr; [done|].
  rewrite serve_cons. simpl. by apply IH, IsRequestAllowed_reachable.
Qed.


(** C2. Under a policy with [limit >= 0], in every keyspace that evaluations
    of the script (and expiries) can produce from the empty store, for every
    key and at every instant [now], the entries of the key's History with
    timestamp [>= now - window] number at most [limit]: as the script
    finds the History at any server time, and as the store holds it. *)
Theorem window_count_bounded limit window d key srv now :
  0 ≤ limit →
  reachable limit window d →
  Z.of_nat (size (in_window now window (History srv key d))) ≤ limit
  ∧ Z.of_nat (size (in_window now window (members (d !! key)))) ≤ limit.
Proof.
  intros Hlim Hr.
  pose proof (reachable_size _ _ _ Hr key) as Hb.
  pose proof (members_lookupKey_size srv key d) as Hv.
  rewrite History_members.
  assert (∀ zs : gmap string Z, (size (in_window now window zs) ≤ size zs)%nat) as Hf
    by (intros zs; apply map_subseteq_size, map_filter_subseteq).
  pose proof (Hf (members (lookupKey srv key d))).
  pose proof (Hf (members (d !! key))).
  lia.
Qed.

Lemma window_count_bounded_witness :
  let d := (slidingWindowScript 1001 "k" 1001 1000 1 "1001-8"
              (slidingWindowScript 1000 "k" 1000 1000 1 "1000-7" ∅).1).1 in
  Z.of_nat (size (in_window 1001 1000 (History 1001 "k" d))) ≤ 1.
Proof.
  intros d.
  apply (window_count_bounded 1 1000 d "k" 1001 1001); [lia|].
  do 2 apply reach_eval. apply reach_empty.
Defined.

End bound.

(** ** The frame of a denial *)

Section denial_frame.
Implicit Types (d : gmap string robj) (key id : string).
Implicit Types (srv now window limit : Z).





End denial_frame.

(** ** Eviction at the window's edge *)

Section sliding.
Implicit Types (d : gmap string robj) (key id m : string) (o : option robj).
Implicit Types (srv now window limit s : Z) (zs : gmap string Z).




Lemma key_transition_accepts srv now window limit id o :
  (∀ str e, o ≠ Some (RObj (VString str) e)) →
  Z.of_nat (size (evict now window (members o))) < limit →
  (key_transition srv now window limit id o).2 = inr 0.
Proof.
  intros Hty Hc. unfold key_transition.
  destruct o as [[[zs|str] e]|]; simpl in *.
  - by rewrite bool_decide_eq_true_2.
  - by destruct (Hty str e).
  - by rewrite bool_decide_eq_true_2.
Qed.




End sliding.

(** ** Request ids *)

Section request_ids.
Implicit Types (s u x : string) (c : ascii) (n : N) (a b : Z).

Lemma pretty_N_char_dashfree n : pretty_N_char n ≠ "-"%char.
Proof. unfold pretty_N_char. by repeat case_match. Qed.

Lemma pretty_N_go_dashfree n : ∀ s, dashfree s → dashfree (pretty_N_go n s).
Proof.
  induction (N.lt_wf_0 n) as [n _ IH]; intros s Hs.
  destruct (decide (n = 0)%N) as [->|Hn]; [by rewrite pretty_N_go_0|].
  rewrite pretty_N_go_step by lia.
  apply IH; [apply N.div_lt; lia|].
  split; [apply pretty_N_char_dashfree | done].
Qed.

Lemma pretty_N_go_nonempty n : ∀ s, s ≠ "" → pretty_N_go n s ≠ "".
Proof.
  induction (N.lt_wf_0 n) as [n _ IH]; intros s Hs.
  destruct (decide (n = 0)%N) as [->|Hn]; [by rewrite pretty_N_go_0|].
  rewrite pretty_N_go_step by lia.
  apply IH; [apply N.div_lt; lia | done].
Qed.

Lemma pretty_N_digits n : dashfree (pretty n) ∧ pretty n ≠ "".
Proof.
  unfold pretty, pretty_N. case_decide as Hn; [done|].
  rewrite pretty_N_go_step by lia. split.
  - apply pretty_N_go_dashfree. split; [apply pretty_N_char_dashfree | done].
  - by apply pretty_N_go_nonempty.
Qed.

(** A decimal numeral: digits, or a dash and digits. *)
Lemma pretty_Z_numeral a :
  ∃ u, dashfree u ∧ u ≠ "" ∧ (pretty a = u ∨ pretty a = String "-" u).
Proof.
  destruct a as [|p|p].
  - exists "0". by repeat split; [..|left].
  - exists (pretty (Npos p)).
    destruct (pretty_N_digits (Npos p)) as [? ?]. by repeat split; [..|left].
  - exists (pretty (Npos p)).
    destruct (pretty_N_digits (Npos p)) as [? ?]. by repeat split; [..|right].
Qed.

(** Digits end at the first dash. *)
Lemma digits_split u : ∀ u' x x',
  dashfree u → dashfree u' →
  u +:+ String "-" x = u' +:+ String "-" x' → u = u' ∧ x = x'.
Proof.
  induction u as [|c u IH]; intros [|c' u'] x x' Hu Hu'; simpl.
  - by intros [= ->].
  - intros [= <- _]. by destruct Hu' as [[] _].
  - intros [= -> _]. by destruct Hu as [[] _].
  - intros [= -> Heq]. destruct Hu as [_ Hu], Hu' as [_ Hu'].
    destruct (IH _ _ _ Hu Hu' Heq) as [-> ->]. done.
Qed.

Lemma numeral_split a a' x x' :
  pretty a +:+ String "-" x = pretty a' +:+ String "-" x' →
  pretty a = pretty a' ∧ x = x'.
Proof.
  destruct (pretty_Z_numeral a) as (u & Hu & Hne & [-> | ->]);
    destruct (pretty_Z_numeral a') as (u' & Hu' & Hne' & [-> | ->]).
  - by apply digits_split.
  - destruct u as [|c u]; [done|]. simpl. intros [= -> _].
    by destruct Hu as [[] _].
  - destruct u' as [|c' u']; [done|]. simpl. intros [= <- _].
    by destruct Hu' as [[] _].
  - simpl. intros [= Heq].
    destruct (digits_split _ _ _ _ Hu Hu' Heq) as [-> ->]. done.
Qed.

(** The format ["%d-%d"] loses nothing. *)
Lemma Sprintf_d_d_inj a b a' b' :
  Sprintf_d_d a b = Sprintf_d_d a' b' → a = a' ∧ b = b'.
Proof.
  unfold Sprintf_d_d. simpl. intros Heq.
  apply numeral_split in Heq as [Ha Hb].
  split; by apply (inj pretty).
Qed.

Lemma requestID_inj env1 env2 :
  requestID env1 = requestID env2 → readings env1 = readings env2.
Proof.
  unfold requestID, readings. intros Heq.
  apply Sprintf_d_d_inj in Heq as [-> ->]. done.
Qed.

(** The id is made of the two clock readings and of nothing else, so the ids
    of a sequence of calls need not be distinct. *)
Lemma same_instant_same_id : ¬ request_ids_always_distinct.
Proof.
  intros H.
  pose (env := CallEnv 1000 1000000007 1000 Delivered).
  specialize (H [env; env]).
  apply NoDup_cons in H as [Hin _]. apply Hin. simpl. left.
Qed.

(** C7. Every id is to differ from every id generated before for the key, so
    that no two admissions become one entry.  The code does not secure it:
    two calls on a key that both read millisecond 1700000000000 and
    nanosecond 1700000000000000007 get the one id
    "1700000000000-1700000000000000007"; under limit 5 both are allowed, and
    the History holds a single entry for the two. *)
Theorem equal_readings_share_an_id :
  let rl := NewRateLimiter 5 Second in
  let first := CallEnv 1700000000000 1700000000000000007 1700000000000 Delivered in
  let second := CallEnv 1700000000000 1700000000000000007 1700000000000 Delivered in
  requestID first = "1700000000000-1700000000000000007"
  ∧ requestID second = "1700000000000-1700000000000000007"
  ∧ (calls rl "limit:127.0.0.1" [first; second] ∅).2 = [true; true]
  ∧ History 1700000000000 "limit:127.0.0.1"
      (calls rl "limit:127.0.0.1" [first; second] ∅).1
    = {["1700000000000-1700000000000000007" := 1700000000000]}.
Proof. by vm_compute. Qed.

(** What the format does secure: two calls whose clock readings differ, in
    the millisecond or, within one millisecond, in the nanosecond, get
    different ids, and adding the entry of one to a sorted set leaves the
    entry of the other as it was. *)
Theorem request_ids_distinct env1 env2 :
  readings env1 ≠ readings env2 →
  requestID env1 ≠ requestID env2
  ∧ ∀ (zs : gmap string Z) (score : Z),
      <[requestID env1 := score]> zs !! requestID env2 = zs !! requestID env2.
Proof.
  intros Hne.
  assert (requestID env1 ≠ requestID env2) as Hid
    by (intros Heq; by apply Hne, requestID_inj).
  split; [done|]. intros zs score. by apply lookup_insert_ne.
Qed.

Lemma request_ids_distinct_witness :
  requestID (CallEnv 1000 1000000007 1000 Delivered)
  ≠ requestID (CallEnv 1000 1000000008 1000 Delivered).
Proof.
  apply (request_ids_distinct (CallEnv 1000 1000000007 1000 Delivered)
           (CallEnv 1000 1000000008 1000 Delivered)).
  unfold readings. simpl. intros [= ].
Defined.

End request_ids.

(** ** The quota, call after call *)

Section quota.
Implicit Types (d : gmap string robj) (key : string) (rl : RateLimiter).
Implicit Types (env : call_env) (envs adm : list call_env) (w : Z).

Lemma within_window_subseteq w envs envs' :
  (∀ env, env ∈ envs' → env ∈ envs) →
  within_window w envs → within_window w envs'.
Proof. intros Hsub Hw e e' He He'. apply Hw; by apply Hsub. Qed.

(** The same, as a check that runs over the list. *)
Lemma within_window_Forall w envs :
  Forall (λ e, Forall (λ e', unixMilli e' - unixMilli e < w
                             ∧ server_time e' - server_time e < w) envs) envs →
  within_window w envs.
Proof.
  intros Hall e e' He He'.
  rewrite Forall_forall in Hall. specialize (Hall e He).
  rewrite Forall_forall in Hall. by apply Hall.
Qed.

Lemma within_window_pos w envs env : env ∈ envs → within_window w envs → 0 < w.
Proof. intros He Hw. destruct (Hw env env He He). lia. Qed.

Lemma entries_keys adm :
  ((λ env, (requestID env, unixMilli env)) <$> adm).*1 = requestID <$> adm.
Proof. by rewrite <- list_fmap_compose. Qed.

Lemma entries_size adm :
  NoDup (requestID <$> adm) → size (entries adm) = length adm.
Proof.
  intros Hnd. unfold entries. rewrite map_size_list_to_map.
  - by rewrite length_fmap.
  - by rewrite entries_keys.
Qed.

Lemma entries_lookup adm m s :
  entries adm !! m = Some s → ∃ env, env ∈ adm ∧ s = unixMilli env.
Proof.
  unfold entries. intros Hm. apply elem_of_list_to_map_2 in Hm.
  apply list_elem_of_fmap in Hm as (env & [= -> ->] & He). by exists env.
Qed.

Lemma entries_fresh now w adm :
  (∀ env, env ∈ adm → now - unixMilli env < w) →
  evict now w (entries adm) = entries adm.
Proof.
  intros Hw. apply evict_none_stale. intros m s Hm.
  apply entries_lookup in Hm as (env & He & ->).
  specialize (Hw env He). lia.
Qed.

Lemma holds_entries_lookupKey key w adm d srv :
  holds_entries key w adm d →
  (∀ env, env ∈ adm → srv - server_time env < w) →
  lookupKey srv key d = d !! key ∧ members (d !! key) = entries adm.
Proof.
  intros Hh Hw. destruct adm as [|e1 adm].
  - simpl in Hh. by rewrite lookupKey_fresh, Hh.
  - destruct Hh as (e0 & He0 & Hk). rewrite Hk. split; [|done].
    apply lookupKey_live; [done|]. unfold expired. simpl.
    apply bool_decide_eq_false_2. specialize (Hw e0 He0). lia.
Qed.

(** One more call on a key that holds the entries of [adm]: admitted while
    fewer than [limit] are held, denied and without effect from then on. *)
Lemma call_step rl key env adm d (r : nat) :
  holds_entries key (Milliseconds (window rl)) adm d →
  Z.of_nat (length adm) + Z.of_nat r = limit rl →
  NoDup (requestID <$> (env :: adm)) →
  within_window (Milliseconds (window rl)) (env :: adm) →
  link env = Delivered →
  match r with
  | O => (IsRequestAllowed rl env key d).2 = false
         ∧ holds_entries key (Milliseconds (window rl)) adm
             (IsRequestAllowed rl env key d).1
  | S _ => (IsRequestAllowed rl env key d).2 = true
           ∧ holds_entries key (Milliseconds (window rl)) (env :: adm)
               (IsRequestAllowed rl env key d).1
  end.
Proof.
  intros Hh Hlim Hnd Hw Hl.
  set (w := Milliseconds (window rl)) in *.
  assert (0 < w) as Hpos by (eapply within_window_pos; [|done]; left).
  assert (∀ e, e ∈ adm → server_time env - server_time e < w) as Hsrv.
  { intros e He. apply (Hw e env); [by right | left]. }
  assert (∀ e, e ∈ adm → unixMilli env - unixMilli e < w) as Hnow.
  { intros e He. apply (Hw e env); [by right | left]. }
  destruct (holds_entries_lookupKey key w adm d _ Hh Hsrv) as [Hlk Hmem].
  apply NoDup_cons in Hnd as [Hfresh Hnd]. fold (fmap requestID adm) in *.
  pose proof (entries_size adm Hnd) as Hsize.
  rewrite IsRequestAllowed_delivered by done. cbv zeta. fold w.
  rewrite Hlk. unfold key_transition.
  assert (∀ str e, d !! key ≠ Some (RObj (VString str) e)) as Hty.
  { intros str e Hk. rewrite Hk in Hmem. simpl in Hmem.
    destruct adm as [|e1 adm]; [simpl in Hh; congruence|].
    destruct Hh as (e0 & _ & Hk'). congruence. }
  assert (evict (unixMilli env) w (members (d !! key)) = entries adm) as Hev.
  { rewrite Hmem. by apply entries_fresh. }
  destruct (d !! key) as [[[zs|str] e]|] eqn:Hk;
    [| by destruct (Hty str e) |]; rewrite Hev, Hsize.
  - destruct r as [|r'].
    + rewrite bool_decide_eq_false_2 by lia. simpl. split; [done|].
      simpl in Hmem. subst zs.
      destruct adm as [|e1 adm]; [simpl in Hh; congruence|].
      destruct Hh as (e0 & He0 & Hk'). rewrite Hk in Hk'. injection Hk' as ->.
      rewrite decide_False.
      * exists e0. by rewrite put_lookup.
      * intros Hemp. rewrite Hemp, map_size_empty in Hsize. done.
    + rewrite bool_decide_eq_true_2 by lia.
      rewrite bool_decide_eq_false_2 by lia. simpl. split; [done|].
      exists env. split; [left|]. by rewrite lookup_insert_eq.
  - destruct r as [|r'].
    + rewrite bool_decide_eq_false_2 by lia. simpl. split; [done|].
      simpl in Hmem. destruct adm as [|e1 adm].
      * simpl. rewrite decide_True by done. apply lookup_delete_eq.
      * destruct Hh as (e0 & _ & Hk'). congruence.
    + rewrite bool_decide_eq_true_2 by lia.
      rewrite bool_decide_eq_false_2 by lia. simpl. split; [done|].
      exists env. split; [left|]. by rewrite lookup_insert_eq.
Qed.

(** From [holds_entries], with room for [r] more: the next [r] calls are
    admitted, every later one is denied. *)
Lemma calls_quota rl key envs :
  ∀ adm d (r : nat),
    holds_entries key (Milliseconds (window rl)) adm d →
    Z.of_nat (length adm) + Z.of_nat r = limit rl →
    NoDup (requestID <$> (envs ++ adm)) →
    within_window (Milliseconds (window rl)) (envs ++ adm) →
    delivered envs →
    (calls rl key envs d).2 =
      replicate (r `min` length envs) true ++ replicate (length envs - r) false.
Proof.
  induction envs as [|env envs IH]; intros adm d r Hh Hlim Hnd Hw Hdel.
  { simpl. by rewrite Nat.min_0_r. }
  apply Forall_cons in Hdel as [Hl Hdel].
  assert (NoDup (requestID <$> (env :: adm))) as Hnd1.
  { eapply sublist_NoDup; [exact Hnd|].
    apply fmap_sublist. simpl. apply sublist_skip, sublist_inserts_l. done. }
  assert (within_window (Milliseconds (window rl)) (env :: adm)) as Hw1.
  { eapply within_window_subseteq; [|exact Hw].
      intros x. rewrite ?elem_of_app, ?elem_of_cons, ?elem_of_app. tauto. }
  pose proof (call_step rl key env adm d r Hh Hlim Hnd1 Hw1 Hl) as Hstep.
  rewrite calls_cons. simpl.
  destruct r as [|r']; destruct Hstep as [-> Hh'].
  - rewrite (IH adm _ 0%nat Hh'); [|done| | |done].
    + simpl. by rewrite Nat.sub_0_r.
    + simpl in Hnd. by apply NoDup_cons in Hnd as [_ ?].
    + eapply within_window_subseteq; [|exact Hw].
      intros x. rewrite ?elem_of_app, ?elem_of_cons, ?elem_of_app. tauto.
  - rewrite (IH (env :: adm) _ r' Hh'); [done| | | |done].
    + simpl length. lia.
    + assert (envs ++ env :: adm ≡ₚ (env :: envs) ++ adm) as ->
        by (by rewrite <- Permutation_middle).
      exact Hnd.
    + eapply within_window_subseteq; [|exact Hw].
      intros x. rewrite ?elem_of_app, ?elem_of_cons, ?elem_of_app. tauto.
Qed.

Lemma NoDup_requestID envs :
  NoDup (readings <$> envs) → NoDup (requestID <$> envs).
Proof.
  induction envs as [|env envs IH]; simpl; [constructor|].
  rewrite !NoDup_cons. intros [Hfresh Hnd]. split; [|by apply IH].
  intros Hin. apply Hfresh.
  apply list_elem_of_fmap in Hin as (env' & Heq & He).
  apply requestID_inj in Heq. rewrite Heq. by apply list_elem_of_fmap_2.
Qed.

Lemma calls_from_fresh rl (N : nat) key envs d :
  limit rl = Z.of_nat N → d !! key = None →
  delivered envs → within_window (Milliseconds (window rl)) envs →
  NoDup (readings <$> envs) →
  (calls rl key envs d).2 =
    replicate (N `min` length envs) true ++ replicate (length envs - N) false.
Proof.
  intros Hlim Hk Hdel Hw Hnd.
  apply (calls_quota rl key envs [] d N); rewrite ?app_nil_r; try done.
  by apply NoDup_requestID.
Qed.

Lemma admissions_replicate (a b : nat) :
  admissions (replicate a true ++ replicate b false) = a
  ∧ denials (replicate a true ++ replicate b false) = b.
Proof.
  unfold admissions, denials. rewrite !filter_app, !length_app.
  assert (∀ n, filter (λ b, b = true) (replicate n true) = replicate n true) as Htt.
  { induction n as [|n IHn]; [done|]. simpl. rewrite filter_cons_True by done.
    by rewrite IHn. }
  assert (∀ n, filter (λ b, b = true) (replicate n false) = []) as Htf.
  { induction n as [|n IHn]; [done|]. simpl. by rewrite filter_cons_False. }
  assert (∀ n, filter (λ b, b = false) (replicate n true) = []) as Hft.
  { induction n as [|n IHn]; [done|]. simpl. by rewrite filter_cons_False. }
  assert (∀ n, filter (λ b, b = false) (replicate n false) = replicate n false) as Hff.
  { induction n as [|n IHn]; [done|]. simpl. rewrite filter_cons_True by done.
    by rewrite IHn. }
  rewrite Htt, Htf, Hft, Hff. simpl. rewrite !length_replicate. lia.
Qed.

End quota.

(** ** The quota boundary, in sequence and under contention *)

Section quota_claims.
Implicit Types (d : gmap string robj) (key : string) (rl : RateLimiter).
Implicit Types (env : call_env) (envs arrival : list call_env).

(** Concrete call lists lie within a window by inspection. *)
Ltac within_by_check :=
  apply within_window_Forall; apply (bool_decide_unpack _); by vm_compute.

(** C1. With [limit = N] the first [N] calls on a fresh key within the
    window are to return true and the next one false.  The code breaks it
    when two of the calls read the same clock values: with limit 2, window
    1 s and a reachable store, the first two calls send the same id, the
    second admission rewrites the entry of the first, and the third call,
    one millisecond later, returns true. *)
Theorem equal_readings_breach_quota_boundary :
  let rl := NewRateLimiter 2 Second in
  let e := CallEnv 1700000000000 1700000000000000007 1700000000000 Delivered in
  let e' := CallEnv 1700000000001 1700000000001000007 1700000000001 Delivered in
  delivered [e; e; e']
  ∧ within_window (Milliseconds (window rl)) [e; e; e']
  ∧ (calls rl "limit:127.0.0.1" [e; e; e'] ∅).2 = [true; true; true]
  ∧ History 1700000000000 "limit:127.0.0.1"
      (calls rl "limit:127.0.0.1" [e; e] ∅).1
    = {["1700000000000-1700000000000000007" := 1700000000000]}.
Proof.
  intros rl e e'.
  split; [by repeat constructor|]. split; [within_by_check|]. by vm_compute.
Qed.

(** Hence the boundary does not hold of every [N + 1] calls in a window. *)
Lemma third_call_allowed_after_merge : ¬ quota_boundary_any_calls.
Proof.
  intros H.
  pose (e := CallEnv 1000 1000000007 1000 Delivered).
  pose (e' := CallEnv 1001 1001000007 1001 Delivered).
  specialize (H (NewRateLimiter 2 Second) 2%nat "limit:127.0.0.1" [e; e; e'] ∅).
  assert ((calls (NewRateLimiter 2 Second) "limit:127.0.0.1" [e; e; e'] ∅).2
          = [true; true; false]) as Hcalls.
  { apply H; [done | done | done | by repeat constructor | within_by_check]. }
  vm_compute in Hcalls. discriminate Hcalls.
Qed.

(** The boundary holds once the ids differ.  For a limiter with
    [limit = N], on a key that is not in the store, [N + 1] calls that reach
    the store, lie within one window of each other and read pairwise
    different clock values: the first [N] return true, the last returns
    false. *)
Theorem quota_boundary rl (N : nat) key envs d :
  limit rl = Z.of_nat N →
  d !! key = None →
  length envs = S N →
  delivered envs →
  within_window (Milliseconds (window rl)) envs →
  NoDup (readings <$> envs) →
  (calls rl key envs d).2 = replicate N true ++ [false].
Proof.
  intros Hlim Hk Hlen Hdel Hw Hnd.
  rewrite (calls_from_fresh rl N key envs d) by done.
  rewrite Hlen. replace (N `min` S N)%nat with N by lia.
  by replace (S N - N)%nat with 1%nat by lia.
Qed.

Lemma quota_boundary_witness :
  let at_ t := CallEnv t (t * 1000000 + 7) t Delivered in
  (calls (NewRateLimiter 3 Second) "limit:127.0.0.1"
     [at_ 1000; at_ 1001; CallEnv 1001 1001000008 1001 Delivered; at_ 1999] ∅).2
  = [true; true; true; false].
Proof.
  intros at_.
  apply (quota_boundary (NewRateLimiter 3 Second) 3);
    [done | done | done | by repeat constructor | within_by_check |].
  apply (bool_decide_unpack _). by vm_compute.
Defined.

(** C9. Of [M > N] calls made at once on a fresh key exactly [N] are to
    return true, in whatever order the store takes them.  The code breaks it
    when the calls read the same clock values: three calls at one instant
    are one entry to the store, and with limit 2 all three return true. *)
Theorem equal_readings_breach_concurrent_quota :
  let rl := NewRateLimiter 2 Second in
  let e := CallEnv 1700000000000 1700000000000000007 1700000000000 Delivered in
  delivered [e; e; e]
  ∧ within_window (Milliseconds (window rl)) [e; e; e]
  ∧ (calls rl "limit:127.0.0.1" [e; e; e] ∅).2 = [true; true; true]
  ∧ admissions (calls rl "limit:127.0.0.1" [e; e; e] ∅).2 = 3%nat
  ∧ denials (calls rl "limit:127.0.0.1" [e; e; e] ∅).2 = 0%nat.
Proof.
  intros rl e.
  split; [by repeat constructor|]. split; [within_by_check|]. by vm_compute.
Qed.

(** Hence the quota does not hold of every [M] calls made at once. *)
Lemma simultaneous_calls_exceed_quota : ¬ concurrent_quota_any_calls.
Proof.
  intros H.
  pose (e := CallEnv 1000 1000000007 1000 Delivered).
  destruct (H (NewRateLimiter 2 Second) 2%nat "limit:127.0.0.1" [e; e; e] [e; e; e] ∅)
    as [Hadm _];
    [done | done | simpl; lia | by repeat constructor | within_by_check | done |].
  vm_compute in Hadm. discriminate Hadm.
Qed.

(** The quota under contention holds once the ids differ.  The store
    evaluates the script as one unit, so calls made at once reach it in some
    order.  For a limiter with [limit = N], on a key that is not in the
    store, take [M > N] calls that reach the store, lie within one window of
    each other and read pairwise different clock values: in whatever order
    they arrive, the first [N] to arrive are allowed and the others denied,
    [N] allowed and [M - N] denied in all. *)
Theorem concurrent_quota rl (N : nat) key envs arrival d :
  limit rl = Z.of_nat N →
  d !! key = None →
  (N < length envs)%nat →
  delivered envs →
  within_window (Milliseconds (window rl)) envs →
  NoDup (readings <$> envs) →
  arrival ≡ₚ envs →
  (calls rl key arrival d).2 =
    replicate N true ++ replicate (length envs - N) false
  ∧ admissions (calls rl key arrival d).2 = N
  ∧ denials (calls rl key arrival d).2 = (length envs - N)%nat.
Proof.
  intros Hlim Hk Hlen Hdel Hw Hnd Hperm.
  assert ((calls rl key arrival d).2 =
          replicate N true ++ replicate (length envs - N) false) as Hcalls.
  { rewrite (calls_from_fresh rl N key arrival d); [|done|done|..].
    - rewrite Hperm. by replace (N `min` length envs)%nat with N by lia.
    - unfold delivered. by rewrite Hperm.
    - eapply within_window_subseteq; [|exact Hw].
      intros env. by rewrite Hperm.
    - by rewrite Hperm. }
  split; [done|]. rewrite Hcalls. apply admissions_replicate.
Qed.

Lemma concurrent_quota_witness :
  let at_ n := CallEnv 1000 (1000000000 + n) 1000 Delivered in
  admissions (calls (NewRateLimiter 2 Second) "limit:127.0.0.1"
                [at_ 3; at_ 1; at_ 4; at_ 2] ∅).2 = 2%nat
  ∧ denials (calls (NewRateLimiter 2 Second) "limit:127.0.0.1"
               [at_ 3; at_ 1; at_ 4; at_ 2] ∅).2 = 2%nat.
Proof.
  intros at_.
  destruct (concurrent_quota (NewRateLimiter 2 Second) 2 "limit:127.0.0.1"
              [at_ 1; at_ 2; at_ 3; at_ 4] [at_ 3; at_ 1; at_ 4; at_ 2] ∅)
    as (_ & Hadm & Hden);
    [done | done | simpl; lia | by repeat constructor | within_by_check | | |].
  - apply (bool_decide_unpack _). by vm_compute.
  - apply (bool_decide_unpack _). by vm_compute.
  - split; [exact Hadm | exact Hden].
Defined.

End quota_claims.

(** ** The two scenarios of the specification *)

Section scenarios.

(** Limit 3, window 1 s: three calls in a row are allowed, a fourth at once
    is not, and a fifth two seconds later is. *)
Example scenario_A :
  let rl := NewRateLimiter 3 Second in
  let at_ t := CallEnv t (t * 1000000 + 7) t Delivered in
  (calls rl "limit:127.0.0.1"
     [at_ 1000; at_ 1001; at_ 1002; at_ 1003; at_ 3003] ∅).2
  = [true; true; true; false; true].
Proof. by vm_compute. Qed.

(** Limit 0, window 1 s: the first call on a key is denied. *)
Example scenario_B :
  (IsRequestAllowed (NewRateLimiter 0 Second)
     (CallEnv 1000 1000000007 1000 Delivered) "limit:127.0.0.1" ∅).2 = false.
Proof. by vm_compute. Qed.

End scenarios.

(** ** What an admission leaves behind *)

Section admission.
Implicit Types (d : gmap string robj) (key id : string) (o : option robj).
Implicit Types (srv now window limit : Z) (rl : RateLimiter) (env : call_env).

Lemma key_transition_accepted srv now window limit id o :
  (key_transition srv now window limit id o).2 = inr 0 →
  Z.of_nat (size (evict now window (members o))) < limit
  ∧ (key_transition srv now window limit id o).1 =
      if bool_decide (window ≤ 0) then None
      else Some (RObj (VZSet (<[id := now]> (evict now window (members o))))
                   (Some (srv + window))).
Proof.
  unfold key_transition.
  destruct o as [[[zs|s] e]|]; [|done|]; case_bool_decide; simpl; try done.
Qed.

Lemma live_fresh_expiry srv window v :
  0 < window → live srv (Some (RObj v (Some (srv + window)))).
Proof.
  intros Hw o [= <-]. unfold expired. simpl. apply bool_decide_eq_false_2. lia.
Qed.

Lemma script_accepted srv key now window limit id d d' :
  slidingWindowScript srv key now window limit id d = (d', inr 0) →
  Z.of_nat (size (evict now window (History srv key d))) < limit
  ∧ d' = put key (if bool_decide (window ≤ 0) then None
                  else Some (RObj (VZSet (<[id := now]>
                                     (evict now window (History srv key d))))
                               (Some (srv + window)))) d.
Proof.
  rewrite script_local. cbv zeta. intros [= Hd Hr].
  apply key_transition_accepted in Hr as [Hc Ho].
  rewrite Ho in Hd. by rewrite History_members.
Qed.

Lemma script_accepted_key srv key now window limit id d d' :
  slidingWindowScript srv key now window limit id d = (d', inr 0) →
  0 < window →
  lookupKey srv key d' =
    Some (RObj (VZSet (<[id := now]> (evict now window (History srv key d))))
            (Some (srv + window)))
  ∧ Z.of_nat (size (evict now window (History srv key d))) < limit
  ∧ ∀ key', key' ≠ key → d' !! key' = d !! key'.
Proof.
  intros Hs Hw. apply script_accepted in Hs as [Hc ->].
  rewrite bool_decide_eq_false_2 by lia.
  split; [apply lookupKey_put; by apply live_fresh_expiry|].
  split; [done|]. intros key' Hne. by apply put_lookup_ne.
Qed.

(** An evaluation that answers 0 under a positive window leaves the key
    with the former entries that were not stale plus the entry [id] at score
    [now], due to expire exactly one window after the server time of the
    evaluation; there was room for the entry, and no other key is touched. *)
Theorem admission_records_entry srv key now window limit id d d' :
  slidingWindowScript srv key now window limit id d = (d', inr 0) →
  0 < window →
  lookupKey srv key d' =
    Some (RObj (VZSet (<[id := now]> (evict now window (History srv key d))))
            (Some (srv + window)))
  ∧ History srv key d' !! id = Some now
  ∧ Z.of_nat (size (evict now window (History srv key d))) < limit
  ∧ ∀ key', key' ≠ key → d' !! key' = d !! key'.
Proof.
  intros Hs Hw.
  destruct (script_accepted_key _ _ _ _ _ _ _ _ Hs Hw) as (Hl & Hc & Hframe).
  split; [done|]. split; [|done].
  rewrite History_members, Hl. simpl. apply lookup_insert_eq.
Qed.

Lemma admission_records_entry_witness :
  let d := (slidingWindowScript 5000 "k" 5000 1000 3 "5000-1" ∅).1 in
  let d' := (slidingWindowScript 5400 "k" 5400 1000 3 "5400-2" d).1 in
  lookupKey 5400 "k" d' =
    Some (RObj (VZSet {["5000-1" := 5000; "5400-2" := 5400]}) (Some 6400)).
Proof.
  intros d d'.
  destruct (admission_records_entry 5400 "k" 5400 1000 3 "5400-2" d d')
    as (Hl & _); [by vm_compute | lia |].
  etrans; [exact Hl|]. by vm_compute.
Defined.

(** The key lives exactly one window past its last admission: up to
    [srv + window] on the server clock it is found as the admission left it,
    after that it is gone, its History is empty and the next evaluation
    under the same limit answers 0. *)
Theorem key_expires_one_window_after_admission
    srv key now window limit id d d' (t : Z) :
  slidingWindowScript srv key now window limit id d = (d', inr 0) →
  0 < window →
  (t ≤ srv + window → lookupKey t key d' = lookupKey srv key d')
  ∧ (srv + window < t →
     lookupKey t key d' = None
     ∧ History t key d' = ∅
     ∧ ∀ now' window' id',
         (slidingWindowScript t key now' window' limit id' d').2 = inr 0).
Proof.
  intros Hs Hw.
  destruct (script_accepted_key _ _ _ _ _ _ _ _ Hs Hw) as (Hl & Hc & _).
  apply lookupKey_Some in Hl as [Hk _].
  split.
  - intros Ht. rewrite (lookupKey_live srv key d' _ Hk)
      by (unfold expired; simpl; apply bool_decide_eq_false_2; lia).
    apply (lookupKey_live t key d' _ Hk).
    unfold expired. simpl. apply bool_decide_eq_false_2. lia.
  - intros Ht.
    assert (lookupKey t key d' = None) as Hnone.
    { unfold lookupKey, expireIfNeeded. rewrite Hk. unfold expired. simpl.
      rewrite bool_decide_eq_true_2 by lia. apply lookup_delete_eq. }
    split; [done|]. split; [by rewrite History_members, Hnone|].
    intros now' window' id'. rewrite script_local, Hnone. cbv zeta.
    cbn [snd]. apply key_transition_accepts; [done|]. cbn [members].
    unfold evict. rewrite map_filter_empty, map_size_empty. lia.
Qed.

Lemma key_expires_one_window_after_admission_witness :
  let d' := (slidingWindowScript 5000 "k" 5000 1000 1 "5000-1" ∅).1 in
  lookupKey 6000 "k" d' = lookupKey 5000 "k" d'
  ∧ lookupKey 6001 "k" d' = None.
Proof.
  intros d'. split.
  - apply (key_expires_one_window_after_admission 5000 "k" 5000 1000 1 "5000-1" ∅ d' 6000);
      [by vm_compute | lia | lia].
  - apply (key_expires_one_window_after_admission 5000 "k" 5000 1000 1 "5000-1" ∅ d' 6001);
      [by vm_compute | lia | lia].
Defined.

(** A window that does not reach one millisecond (the script gets
    [Milliseconds window <= 0]) never holds anything: the expiry the script
    sets right after the insertion removes the key.  On a key that is not
    in the store, with a limit of at least 1 and the store answering, every
    call is allowed, however many there are and whenever they come, and the
    key is still not in the store afterwards. *)
Theorem sub_millisecond_window_allows_all rl key envs d :
  window rl < 1000000 →
  1 ≤ limit rl →
  d !! key = None →
  delivered envs →
  (calls rl key envs d).2 = replicate (length envs) true
  ∧ (calls rl key envs d).1 !! key = None.
Proof.
  intros Hwin Hlim Hk Hdel.
  assert (Milliseconds (window rl) ≤ 0) as Hms.
  { unfold Milliseconds.
    destruct (decide (0 ≤ window rl)).
    - rewrite Z.quot_small by lia. done.
    - rewrite <- (Z.opp_involutive (window rl)), Z.quot_opp_l by lia.
      pose proof (Z.quot_pos (- window rl) 1000000). lia. }
  revert d Hk. induction Hdel as [|env envs Hl Hdel IH]; intros d Hk; [done|].
  rewrite calls_cons. cbn [fst snd length replicate].
  assert (IsRequestAllowed rl env key d = (delete key d, true)) as Hcall.
  { rewrite IsRequestAllowed_delivered by done. cbv zeta.
    rewrite (lookupKey_fresh _ _ _ Hk). unfold key_transition. cbn [members].
    unfold evict. rewrite map_filter_empty, map_size_empty.
    rewrite bool_decide_eq_true_2 by lia.
    by rewrite bool_decide_eq_true_2 by lia. }
  rewrite Hcall. cbn [fst snd].
  destruct (IH (delete key d)) as [-> ->]; [apply lookup_delete_eq|done].
Qed.

Lemma sub_millisecond_window_allows_all_witness :
  let at_ t := CallEnv t (t * 1000000 + 7) t Delivered in
  (calls (NewRateLimiter 1 500000) "limit:127.0.0.1"
     [at_ 1000; at_ 1000; at_ 1001; at_ 1002] ∅).2 = [true; true; true; true].
Proof.
  intros at_.
  apply (sub_millisecond_window_allows_all (NewRateLimiter 1 500000));
    [by vm_compute | by vm_compute | done | by repeat constructor].
Defined.

Lemma key_transition_total srv now window limit id o :
  (∀ str e, o ≠ Some (RObj (VString str) e)) →
  (key_transition srv now window limit id o).2 = inr 0
  ∨ (key_transition srv now window limit id o).2 = inr 1.
Proof.
  intros Hty. unfold key_transition.
  destruct o as [[[zs|str] e]|]; [|by destruct (Hty str e)|];
    case_bool_decide; simpl; auto.
Qed.

(** On a store that only the script has written (from empty, under one
    policy, keys expiring as they may) the script never raises, whatever
    arguments the next evaluation comes with: it answers 0 or 1.  A call
    that reaches such a store and gets its reply returns true exactly when
    the script answered 0. *)
Theorem script_never_raises_on_own_store limit window d srv key now w l id :
  reachable limit window d →
  ((slidingWindowScript srv key now w l id d).2 = inr 0
   ∨ (slidingWindowScript srv key now w l id d).2 = inr 1)
  ∧ ∀ rl env,
      link env = Delivered →
      ((IsRequestAllowed rl env key d).2 = true ↔
       (slidingWindowScript (server_time env) key (unixMilli env)
          (Milliseconds (Limiter.window rl)) (Limiter.limit rl)
          (requestID env) d).2 = inr 0).
Proof.
  intros Hreach.
  pose proof (reachable_well_formed _ _ _ Hreach) as Hwf.
  assert (∀ t str e, lookupKey t key d ≠ Some (RObj (VString str) e)) as Hty.
  { intros t str e Hl. apply lookupKey_Some in Hl as [Hk _].
    by destruct (Hwf _ _ Hk) as (zs & e' & [=] & _). }
  split.
  - rewrite script_local. cbv zeta. cbn [snd]. by apply key_transition_total.
  - intros rl env Hl. rewrite IsRequestAllowed_delivered, script_local by done.
    cbv zeta. cbn [snd].
    destruct (key_transition_total (server_time env) (unixMilli env)
                (Milliseconds (Limiter.window rl)) (Limiter.limit rl)
                (requestID env) _ (Hty (server_time env))) as [-> | ->];
      simpl; split; done.
Qed.

Lemma script_never_raises_on_own_store_witness :
  let d := (slidingWindowScript 5000 "k" 5000 1000 1 "5000-1" ∅).1 in
  (slidingWindowScript 5001 "k" 5001 1000 1 "5001-2" d).2 = inr 0
  ∨ (slidingWindowScript 5001 "k" 5001 1000 1 "5001-2" d).2 = inr 1.
Proof.
  intros d.
  apply (script_never_raises_on_own_store 1 1000 d 5001 "k" 5001 1000 1 "5001-2").
  apply reach_eval, reach_empty.
Defined.

End admission.

(** ** Who the caller is: [getIP] *)

Import Http.

Section addresses.
Implicit Types (s t : list ascii) (c : ascii) (host port : string).
Implicit Types (r : Request).

Lemma list_ascii_of_string_app (a b : string) :
  String.list_ascii_of_string (a +:+ b) =
  String.list_ascii_of_string a ++ String.list_ascii_of_string b.
Proof. induction a as [|c a IH]; [done|]. simpl. by rewrite IH. Qed.

Lemma IndexByte_None s c : c ∉ s → IndexByte s c = None.
Proof.
  induction s as [|x s IH]; [done|]. intros Hn.
  apply not_elem_of_cons in Hn as [Hne Hn]. simpl.
  rewrite decide_False by done. by rewrite IH.
Qed.

Lemma IndexByte_Some s c i : IndexByte s c = Some i → s !! i = Some c.
Proof.
  revert i. induction s as [|x s IH]; intros i; [done|]. simpl.
  destruct (decide (x = c)) as [->|Hne]; [by intros [= <-]|].
  destruct (IndexByte s c) as [j|]; [|done]. intros [= <-]. by apply IH.
Qed.

Lemma IndexByte_first s t c : c ∉ s → IndexByte (s ++ c :: t) c = Some (length s).
Proof.
  induction s as [|x s IH]; intros Hn; simpl.
  - by rewrite decide_True.
  - apply not_elem_of_cons in Hn as [Hne Hn].
    rewrite decide_False by done. by rewrite IH.
Qed.

Lemma LastIndexByte_None s c : c ∉ s → LastIndexByte s c = None.
Proof.
  induction s as [|x s IH]; [done|]. intros Hn.
  apply not_elem_of_cons in Hn as [Hne Hn]. simpl.
  rewrite IH by done. by rewrite decide_False.
Qed.

Lemma LastIndexByte_last s t c :
  c ∉ t → LastIndexByte (s ++ c :: t) c = Some (length s).
Proof.
  intros Hn. induction s as [|x s IH]; simpl.
  - rewrite LastIndexByte_None by done. by rewrite decide_True.
  - by rewrite IH.
Qed.

Lemma plain_not_elem host c :
  plain host → c = ":"%char ∨ c = "["%char ∨ c = "]"%char →
  c ∉ String.list_ascii_of_string host.
Proof.
  unfold plain. rewrite Forall_forall. intros Hp Hc Hin.
  destruct (Hp c Hin) as (H1 & H2 & H3).
  destruct Hc as [Hc|[Hc|Hc]]; by subst c.
Qed.

(** A plain host, a colon and a plain port come apart again. *)
Lemma SplitHostPort_plain host port :
  plain host → plain port →
  SplitHostPort (host +:+ ":" +:+ port) = (host, port, None).
Proof.
  intros Hh Hp. unfold SplitHostPort.
  rewrite list_ascii_of_string_app.
  change (String.list_ascii_of_string (":" +:+ port))
    with (":"%char :: String.list_ascii_of_string port).
  set (h := String.list_ascii_of_string host).
  set (p := String.list_ascii_of_string port).
  assert (∀ c, c = ":"%char ∨ c = "["%char ∨ c = "]"%char → c ∉ h) as Hnh
    by (intros c Hc; by apply plain_not_elem).
  assert (∀ c, c = ":"%char ∨ c = "["%char ∨ c = "]"%char → c ∉ p) as Hnp
    by (intros c Hc; by apply plain_not_elem).
  rewrite LastIndexByte_last by auto.
  assert ((h ++ ":"%char :: p) !! 0%nat ≠ Some "["%char) as Hhead.
  { destruct h as [|x h'] eqn:Hx; simpl; [done|].
    intros [= ->]. apply (Hnh "["%char); [auto|left]. }
  rewrite decide_False by done.
  rewrite take_app_length. rewrite (IndexByte_None h) by auto.
  rewrite !drop_0.
  rewrite (IndexByte_None (h ++ _ :: p) "["%char).
  2:{ rewrite elem_of_app, elem_of_cons. intros [?|[?|?]]; [|done|].
      - by apply (Hnh "["%char); auto.
      - by apply (Hnp "["%char); auto. }
  rewrite (IndexByte_None (h ++ _ :: p) "]"%char).
  2:{ rewrite elem_of_app, elem_of_cons. intros [?|[?|?]]; [|done|].
      - by apply (Hnh "]"%char); auto.
      - by apply (Hnp "]"%char); auto. }
  replace (drop (S (length h)) (h ++ ":"%char :: p)) with p
    by (rewrite drop_app_ge by lia;
        by replace (S (length h) - length h)%nat with 1%nat by lia).
  subst h p. by rewrite !String.string_of_list_ascii_of_string.
Qed.

Lemma bracket_free_not_elem host c :
  bracket_free host → c = "["%char ∨ c = "]"%char →
  c ∉ String.list_ascii_of_string host.
Proof.
  unfold bracket_free. rewrite Forall_forall. intros Hp Hc Hin.
  destruct (Hp c Hin) as (H1 & H2).
  destruct Hc as [Hc|Hc]; by subst c.
Qed.

(** So do a host in square brackets, which may hold colons, and a port. *)
Lemma SplitHostPort_bracketed host port :
  bracket_free host → plain port →
  SplitHostPort ("[" +:+ host +:+ "]:" +:+ port) = (host, port, None).
Proof.
  intros Hh Hp. unfold SplitHostPort.
  change ("[" +:+ host +:+ "]:" +:+ port)
    with (String "["%char (host +:+ String "]"%char (String ":"%char port))).
  cbn [String.list_ascii_of_string]. rewrite list_ascii_of_string_app.
  cbn [String.list_ascii_of_string].
  set (h := String.list_ascii_of_string host).
  set (p := String.list_ascii_of_string port).
  assert (∀ c, c = "["%char ∨ c = "]"%char → c ∉ h) as Hnh
    by (intros c Hc; by apply bracket_free_not_elem).
  assert (∀ c, c = ":"%char ∨ c = "["%char ∨ c = "]"%char → c ∉ p) as Hnp
    by (intros c Hc; by apply plain_not_elem).
  set (s := "["%char :: h ++ "]"%char :: ":"%char :: p).
  assert (LastIndexByte s ":" = Some (length h + 2)%nat) as HL.
  { replace s with (("["%char :: h ++ ["]"%char]) ++ ":"%char :: p)
      by (subst s; simpl; by rewrite <- app_assoc).
    rewrite LastIndexByte_last by auto. f_equal. simpl. rewrite length_app.
    simpl. lia. }
  assert (IndexByte s "]" = Some (length h + 1)%nat) as HI.
  { replace s with (("["%char :: h) ++ "]"%char :: ":"%char :: p) by done.
    rewrite IndexByte_first.
    - f_equal. simpl. lia.
    - rewrite not_elem_of_cons. split; [done|]. apply Hnh. auto. }
  assert (length s = (length h + 3 + length p)%nat) as Hlen.
  { subst s. simpl. rewrite length_app. simpl. lia. }
  assert (IndexByte (drop 1 s) "[" = None) as Hd1.
  { subst s. simpl. rewrite drop_0. apply IndexByte_None.
    rewrite elem_of_app, !elem_of_cons. intros [?|[?|[?|?]]]; [|done|done|].
    - by apply (Hnh "["%char); auto.
    - by apply (Hnp "["%char); auto. }
  assert (drop (S (length h + 1)) s = ":"%char :: p) as Hdk.
  { subst s. simpl. rewrite drop_app_ge by lia.
    by replace (length h + 1 - length h)%nat with 1%nat by lia. }
  assert (take (length h + 1 - 1) (drop 1 s) = h) as Ht.
  { subst s. simpl. rewrite drop_0.
    replace (length h + 1 - 1)%nat with (length h) by lia.
    apply take_app_length. }
  assert (drop (S (length h + 2)) s = p) as Hport.
  { subst s. simpl. rewrite drop_app_ge by lia.
    by replace (length h + 2 - length h)%nat with 2%nat by lia. }
  rewrite HL. rewrite decide_True by done. rewrite HI.
  rewrite decide_False by lia. rewrite decide_True by lia.
  rewrite Hd1, Hdk, Ht, Hport.
  rewrite (IndexByte_None (":"%char :: p)).
  2:{ rewrite elem_of_cons. intros [?|?]; [done|]. by apply (Hnp "]"%char); auto. }
  subst h p. by rewrite !String.string_of_list_ascii_of_string.
Qed.

(** When [SplitHostPort] reports an error, host and port are empty. *)
Lemma SplitHostPort_error hostport host port why :
  SplitHostPort hostport = (host, port, Some why) →
  host = EmptyString ∧ port = EmptyString.
Proof.
  unfold SplitHostPort. repeat case_match; by intros [= <- <-].
Qed.

Lemma SplitHostPort_no_colon hostport :
  ":"%char ∉ String.list_ascii_of_string hostport →
  SplitHostPort hostport = (EmptyString, EmptyString, Some "missing port in address").
Proof.
  intros Hn. unfold SplitHostPort. by rewrite LastIndexByte_None.
Qed.

(** The first piece [Split] returns ends where the first separator stands. *)
Lemma Split_first (str : string) sep :
  ∃ x xs rest,
    Split str sep = x :: xs
    ∧ str = (x +:+ rest)
    ∧ (sep ∉ String.list_ascii_of_string x)
    ∧ (rest = EmptyString ∨ (∃ tl : string, rest = String sep tl)).
Proof.
  induction str as [|c str IH]; simpl.
  - exists EmptyString, [], EmptyString. repeat split; auto. apply not_elem_of_nil.
  - destruct (decide (c = sep)) as [->|Hne].
    + exists EmptyString, (Split str sep), (String sep str).
      repeat split; [apply not_elem_of_nil|]. right. by eexists.
    + destruct IH as (x & xs & rest & -> & Hstr & Hx & Hrest).
      exists (String c x), xs, rest. repeat split; [by rewrite Hstr at 1| |done].
      simpl. by apply not_elem_of_cons.
Qed.

(** A non-empty [X-Forwarded-For] header decides alone: [getIP] returns its
    first value up to the first comma, untrimmed and without a comma,
    whatever the remote address of the connection is. *)
Theorem getIP_forwarded r (forwarded : string) :
  Header_Get (Header r) "X-Forwarded-For" = forwarded →
  forwarded ≠ EmptyString →
  (∃ rest, forwarded = (getIP r +:+ rest)
           ∧ (rest = EmptyString ∨ (∃ tl : string, rest = String ","%char tl)))
  ∧ (","%char ∉ String.list_ascii_of_string (getIP r))
  ∧ ∀ addr, getIP {| Header := Header r; RemoteAddr := addr |} = getIP r.
Proof.
  intros Hget Hne. unfold getIP. simpl. rewrite Hget.
  rewrite !decide_True by done.
  destruct (Split_first forwarded ","%char) as (x & xs & rest & -> & Hf & Hx & Hrest).
  split; [exists rest; by split|]. split; [done|].
  intros addr. by rewrite decide_True.
Qed.

Lemma getIP_forwarded_witness :
  getIP {| Header := {["X-Forwarded-For" := ["203.0.113.7, 10.0.0.1"]]};
           RemoteAddr := "10.0.0.1:41234" |} = "203.0.113.7"
  ∧ ","%char ∉ String.list_ascii_of_string "203.0.113.7".
Proof.
  pose (r := {| Header := {["X-Forwarded-For" := ["203.0.113.7, 10.0.0.1"]]};
                RemoteAddr := "10.0.0.1:41234" |}).
  destruct (getIP_forwarded r "203.0.113.7, 10.0.0.1") as (_ & Hcomma & _);
    [by vm_compute | done |].
  split; [by vm_compute | exact Hcomma].
Defined.

(** Without that header, or with an empty one, the host of the remote
    address is returned: the text before the colon of [host:port], or the
    text between the brackets of [[host]:port]. *)
Theorem getIP_remote_address r host port :
  Header_Get (Header r) "X-Forwarded-For" = EmptyString →
  plain port →
  (plain host → RemoteAddr r = (host +:+ ":" +:+ port) → getIP r = host)
  ∧ (bracket_free host → RemoteAddr r = ("[" +:+ host +:+ "]:" +:+ port) →
     getIP r = host).
Proof.
  intros Hget Hp. unfold getIP. rewrite Hget.
  rewrite decide_False by (by intros []).
  split.
  - intros Hh ->. by rewrite SplitHostPort_plain.
  - intros Hh ->. by rewrite SplitHostPort_bracketed.
Qed.

Lemma getIP_remote_address_witness :
  getIP {| Header := ∅; RemoteAddr := "192.0.2.1:1234" |} = "192.0.2.1"
  ∧ getIP {| Header := {["X-Forwarded-For" := [EmptyString]]};
             RemoteAddr := "[2001:db8::1]:443" |} = "2001:db8::1".
Proof.
  split.
  - destruct (getIP_remote_address
                {| Header := ∅; RemoteAddr := "192.0.2.1:1234" |}
                "192.0.2.1" "1234") as [Hplain _];
      [by vm_compute | apply (bool_decide_unpack _); by vm_compute |].
    apply Hplain; [apply (bool_decide_unpack _); by vm_compute | by vm_compute].
  - destruct (getIP_remote_address
                {| Header := {["X-Forwarded-For" := [EmptyString]]};
                   RemoteAddr := "[2001:db8::1]:443" |}
                "2001:db8::1" "443") as [_ Hbracketed];
      [by vm_compute | apply (bool_decide_unpack _); by vm_compute |].
    apply Hbracketed;
      [apply (bool_decide_unpack _); by vm_compute | by vm_compute].
Defined.

(** A remote address that [SplitHostPort] rejects, one without a colon for
    a start, gives the empty string: the error is dropped, and all such
    requests are counted under the one key ["limit:"]. *)
Theorem getIP_unparsed_address r :
  Header_Get (Header r) "X-Forwarded-For" = EmptyString →
  (∃ why, (SplitHostPort (RemoteAddr r)).2 = Some why)
  ∨ ":"%char ∉ String.list_ascii_of_string (RemoteAddr r) →
  getIP r = EmptyString ∧ ("limit:" +:+ getIP r) = "limit:".
Proof.
  intros Hget Herr.
  assert (getIP r = EmptyString) as ->; [|done].
  unfold getIP. rewrite Hget. rewrite decide_False by (by intros []).
  destruct Herr as [[why Hwhy]|Hn].
  - destruct (SplitHostPort (RemoteAddr r)) as [[host port] err] eqn:Hs.
    simpl in Hwhy. subst err. by apply SplitHostPort_error in Hs as [-> _].
  - by rewrite SplitHostPort_no_colon.
Qed.

Lemma getIP_unparsed_address_witness :
  getIP {| Header := ∅; RemoteAddr := "@" |} = EmptyString
  ∧ getIP {| Header := ∅; RemoteAddr := "2001:db8::1:443" |} = EmptyString.
Proof.
  split.
  - apply (getIP_unparsed_address {| Header := ∅; RemoteAddr := "@" |});
      [by vm_compute|].
    right. apply (bool_decide_unpack _). by vm_compute.
  - apply (getIP_unparsed_address {| Header := ∅; RemoteAddr := "2001:db8::1:443" |});
      [by vm_compute|].
    left. eexists. by vm_compute.
Defined.

End addresses.

(** ** The middleware *)

Section middleware.
Implicit Types (rl : RateLimiter) (next : HandlerFunc) (env : call_env).
Implicit Types (w : ResponseWriter) (r : Request) (s : server).
Implicit Types (reqs : list (call_env * Request)) (m : gmap string nat).

Lemma RateLimitMiddleware_step rl next env w r s :
  RateLimitMiddleware rl next env w r s =
    let res := IsRequestAllowed rl env ("limit:" +:+ getIP r) (store s) in
    ({| store := res.1;
        httpRequestsTotal :=
          Inc (if res.2 then "allowed" else "blocked") (httpRequestsTotal s) |},
     if res.2 then next w r
     else Error w "Too Many Requests" StatusTooManyRequests).
Proof.
  unfold RateLimitMiddleware. cbv zeta.
  by destruct (IsRequestAllowed _ _ _ _) as [d [|]].
Qed.

Lemma ServeAll_cons rl next env r reqs s :
  ServeAll rl next ((env, r) :: reqs) s =
    ((ServeAll rl next reqs (RateLimitMiddleware rl next env NewResponse r s).1).1,
     (RateLimitMiddleware rl next env NewResponse r s).2
       :: (ServeAll rl next reqs (RateLimitMiddleware rl next env NewResponse r s).1).2).
Proof.
  simpl. destruct (RateLimitMiddleware rl next env NewResponse r s) as [s1 w1].
  simpl. by destruct (ServeAll rl next reqs s1).
Qed.

Lemma Count_Inc label m : Count label (Inc label m) = S (Count label m).
Proof. unfold Count, Inc. by rewrite lookup_insert_eq. Qed.

Lemma lookup_Inc_ne label label' m :
  label ≠ label' → Inc label m !! label' = m !! label'.
Proof. intros Hne. unfold Inc. by rewrite lookup_insert_ne. Qed.

Lemma Count_Inc_ne label label' m :
  label ≠ label' → Count label' (Inc label m) = Count label' m.
Proof. intros Hne. unfold Count. by rewrite lookup_Inc_ne. Qed.

Lemma admissions_cons (b : bool) bs :
  admissions (b :: bs) = ((if b then 1 else 0) + admissions bs)%nat
  ∧ denials (b :: bs) = ((if b then 0 else 1) + denials bs)%nat.
Proof.
  unfold admissions, denials. destruct b.
  - rewrite filter_cons_True, filter_cons_False by done. done.
  - rewrite filter_cons_False, filter_cons_True by done. done.
Qed.

(** The store, the counters and the responses of a run of requests, from
    the run of the limiter on the requests' keys. *)
Lemma ServeAll_spec rl next reqs :
  ∀ s,
    store (ServeAll rl next reqs s).1 = (serve rl (keyed reqs) (store s)).1
    ∧ Count "allowed" (httpRequestsTotal (ServeAll rl next reqs s).1) =
        (Count "allowed" (httpRequestsTotal s)
         + admissions (serve rl (keyed reqs) (store s)).2.*2)%nat
    ∧ Count "blocked" (httpRequestsTotal (ServeAll rl next reqs s).1) =
        (Count "blocked" (httpRequestsTotal s)
         + denials (serve rl (keyed reqs) (store s)).2.*2)%nat
    ∧ (∀ label, label ≠ "allowed" → label ≠ "blocked" →
         httpRequestsTotal (ServeAll rl next reqs s).1 !! label =
         httpRequestsTotal s !! label)
    ∧ (ServeAll rl next reqs s).2 =
        zip_with (response next) reqs (serve rl (keyed reqs) (store s)).2.*2.
Proof.
  induction reqs as [|[env r] reqs IH]; intros s.
  { simpl. unfold admissions, denials. simpl. repeat split; lia. }
  rewrite ServeAll_cons. unfold keyed. rewrite fmap_cons. fold (keyed reqs).
  cbn [fst snd]. rewrite serve_cons. cbn [fst snd fmap list_fmap].
  rewrite RateLimitMiddleware_step. cbv zeta. cbn [fst snd].
  set (res := IsRequestAllowed rl env ("limit:" +:+ getIP r) (store s)).
  destruct (IH {| store := res.1;
                  httpRequestsTotal :=
                    Inc (if res.2 then "allowed" else "blocked")
                      (httpRequestsTotal s) |})
    as (Hst & Hal & Hbl & Hoth & Hresp).
  cbn [store httpRequestsTotal] in *.
  destruct (admissions_cons res.2 (serve rl (keyed reqs) res.1).2.*2) as [Ha Hd].
  split; [done|]. split; [|split; [|split]].
  - rewrite Hal. change (list_fmap _ _ snd ?l) with (l.*2). rewrite Ha.
    destruct res.2.
    + rewrite Count_Inc. lia.
    + rewrite Count_Inc_ne by done. lia.
  - rewrite Hbl. change (list_fmap _ _ snd ?l) with (l.*2). rewrite Hd.
    destruct res.2.
    + rewrite Count_Inc_ne by done. lia.
    + rewrite Count_Inc. lia.
  - intros label H1 H2. rewrite Hoth by done.
    destruct res.2; by rewrite lookup_Inc_ne.
  - rewrite Hresp. simpl. unfold response at 2. simpl. by destruct res.2.
Qed.

Lemma admissions_denials_length (bs : list bool) :
  (admissions bs + denials bs)%nat = length bs.
Proof.
  induction bs as [|b bs IH]; [done|].
  destruct (admissions_cons b bs) as [-> ->]. destruct b; simpl; lia.
Qed.

Lemma serve_length rl (keys : list (string * call_env)) :
  ∀ d, length (serve rl keys d).2 = length keys.
Proof.
  induction keys as [|[key env] keys IH]; intros d; [done|].
  rewrite serve_cons. simpl. by rewrite IH.
Qed.

Lemma serve_same_key rl key (envs : list call_env) :
  ∀ d, (serve rl ((λ env, (key, env)) <$> envs) d).1 = (calls rl key envs d).1
       ∧ (serve rl ((λ env, (key, env)) <$> envs) d).2.*2 = (calls rl key envs d).2.
Proof.
  induction envs as [|env envs IH]; intros d; [done|].
  rewrite fmap_cons, serve_cons, calls_cons. cbn [fst snd fmap list_fmap].
  destruct (IH (IsRequestAllowed rl env key d).1) as [-> Hd]. split; [done|].
  f_equal. exact Hd.
Qed.

Lemma fresh_key_allowed rl env key (d : gmap string robj) :
  d !! key = None → 1 ≤ limit rl → link env = Delivered →
  (IsRequestAllowed rl env key d).2 = true.
Proof.
  intros Hk Hlim Hl. rewrite IsRequestAllowed_delivered by done. cbv zeta.
  cbn [snd]. rewrite (lookupKey_fresh _ _ _ Hk).
  rewrite key_transition_accepts; [done|done|]. cbn [members].
  unfold evict. rewrite map_filter_empty, map_size_empty. lia.
Qed.

(** Every request moves exactly one of the two counters, and the store and
    the counters of the server are those of the limiter run on the requests'
    keys: [allowed] grows by the number of requests it let through,
    [blocked] by the number it refused, no other label is touched; a request
    let through gets the response of the handler, a refused one status 429
    and the handler is not run. *)
Theorem middleware_counts_every_request rl next reqs s :
  let s' := (ServeAll rl next reqs s).1 in
  let decisions := (serve rl (keyed reqs) (store s)).2.*2 in
  store s' = (serve rl (keyed reqs) (store s)).1
  ∧ (Count "allowed" (httpRequestsTotal s') + Count "blocked" (httpRequestsTotal s')
     = Count "allowed" (httpRequestsTotal s) + Count "blocked" (httpRequestsTotal s)
       + length reqs)%nat
  ∧ Count "allowed" (httpRequestsTotal s') =
      (Count "allowed" (httpRequestsTotal s) + admissions decisions)%nat
  ∧ Count "blocked" (httpRequestsTotal s') =
      (Count "blocked" (httpRequestsTotal s) + denials decisions)%nat
  ∧ (∀ label, label ≠ "allowed" → label ≠ "blocked" →
       httpRequestsTotal s' !! label = httpRequestsTotal s !! label)
  ∧ (ServeAll rl next reqs s).2 = zip_with (response next) reqs decisions.
Proof.
  intros s' decisions.
  destruct (ServeAll_spec rl next reqs s) as (Hst & Hal & Hbl & Hoth & Hresp).
  pose proof (admissions_denials_length decisions) as Hsum.
  assert (length decisions = length reqs) as Hlen.
  { subst decisions. rewrite length_fmap, serve_length. unfold keyed.
    by rewrite length_fmap. }
  subst s'. split; [done|]. split; [|done].
  rewrite Hal, Hbl. fold decisions. lia.
Qed.

(** The quota is per address, not per connection.  [N + 1] requests that
    [getIP] attributes to one address, from whatever ports, on a key not yet
    in the store, within one window and with different clock readings: the
    first [N] get the response of the handler, the last gets status 429 and
    the body "Too Many Requests". *)
Theorem per_address_quota rl next (N : nat) (ip : string) reqs s :
  limit rl = Z.of_nat N →
  store s !! ("limit:" +:+ ip) = None →
  length reqs = S N →
  Forall (λ p, getIP p.2 = ip) reqs →
  delivered reqs.*1 →
  within_window (Milliseconds (window rl)) reqs.*1 →
  NoDup (readings <$> reqs.*1) →
  (ServeAll rl next reqs s).2 =
    ((λ p, next NewResponse p.2) <$> take N reqs)
    ++ [{| status := Some 429; body := "Too Many Requests" +:+ newline |}].
Proof.
  intros Hlim Hk Hlen Hip Hdel Hw Hnd.
  destruct (ServeAll_spec rl next reqs s) as (_ & _ & _ & _ & ->).
  assert (keyed reqs = (λ env, ("limit:" +:+ ip, env)) <$> reqs.*1) as ->.
  { unfold keyed. rewrite <- list_fmap_compose.
    apply Forall_fmap_ext_1. eapply Forall_impl; [exact Hip|].
    intros [env r] Hp. simpl in *. by rewrite Hp. }
  destruct (serve_same_key rl ("limit:" +:+ ip) reqs.*1 (store s)) as [_ ->].
  rewrite (calls_from_fresh rl N) by done.
  rewrite length_fmap, Hlen.
  replace (N `min` S N)%nat with N by lia.
  replace (S N - N)%nat with 1%nat by lia.
  rewrite <- (take_drop N reqs) at 1.
  rewrite zip_with_app by (rewrite length_take_le, length_replicate; lia).
  rewrite zip_with_replicate_r_eq by (rewrite length_take_le; lia).
  f_equal.
  destruct (drop N reqs) as [|p [|??]] eqn:Hdrop.
  - apply (f_equal length) in Hdrop. rewrite length_drop in Hdrop. simpl in *. lia.
  - done.
  - apply (f_equal length) in Hdrop. rewrite length_drop in Hdrop. simpl in *. lia.
Qed.

Lemma per_address_quota_witness :
  let from_ port := {| Header := ∅; RemoteAddr := "192.0.2.1:" +:+ port |} in
  let at_ t := CallEnv t (t * 1000000 + 7) t Delivered in
  (ServeAll (NewRateLimiter 2 Second) HelloWorldHandler
     [(at_ 1000, from_ "50001"); (at_ 1200, from_ "50002"); (at_ 1400, from_ "50003")]
     {| store := ∅; httpRequestsTotal := ∅ |}).2
  = [{| status := Some 200; body := "Hello, World!" +:+ newline |};
     {| status := Some 200; body := "Hello, World!" +:+ newline |};
     {| status := Some 429; body := "Too Many Requests" +:+ newline |}].
Proof.
  intros from_ at_.
  apply (per_address_quota (NewRateLimiter 2 Second) HelloWorldHandler 2 "192.0.2.1");
    [done | done | done | | by repeat constructor | | ].
  - repeat constructor; by vm_compute.
  - apply within_window_Forall, (bool_decide_unpack _). by vm_compute.
  - apply (bool_decide_unpack _). by vm_compute.
Defined.

Lemma limit_key_inj (a b : string) : ("limit:" +:+ a) = ("limit:" +:+ b) → a = b.
Proof. apply (inj (String.app "limit:")). Qed.

(** Each address has a quota of its own.  With a limit of at least 1,
    requests that [getIP] attributes to pairwise different addresses, none
    of them counted in the store yet, are all let through and none is
    counted as blocked, whenever they come; so are the requests of one
    connection that sends a new [X-Forwarded-For] value every time. *)
Theorem distinct_addresses_all_allowed rl next reqs s :
  1 ≤ limit rl →
  delivered reqs.*1 →
  NoDup ((λ p, getIP p.2) <$> reqs) →
  (∀ p, p ∈ reqs → store s !! ("limit:" +:+ getIP p.2) = None) →
  (ServeAll rl next reqs s).2 = (λ p, next NewResponse p.2) <$> reqs
  ∧ Count "blocked" (httpRequestsTotal (ServeAll rl next reqs s).1)
    = Count "blocked" (httpRequestsTotal s).
Proof.
  intros Hlim. revert s.
  induction reqs as [|[env r] reqs IH]; intros s Hdel Hnd Hfresh; [done|].
  rewrite fmap_cons in Hdel. rewrite fmap_cons in Hnd. cbn [fst snd] in *.
  apply Forall_cons in Hdel as [Hl Hdel].
  apply NoDup_cons in Hnd as [Hnew Hnd].
  rewrite ServeAll_cons, RateLimitMiddleware_step. cbv zeta. cbn [fst snd].
  rewrite (fresh_key_allowed rl env _ (store s)); [|by apply (Hfresh (env, r)); left|done..].
  rewrite fmap_cons. cbn [snd].
  destruct (IH {| store := (IsRequestAllowed rl env ("limit:" +:+ getIP r) (store s)).1;
                  httpRequestsTotal := Inc "allowed" (httpRequestsTotal s) |})
    as [-> ->]; [done | done | |].
  - intros p Hp. cbn [store].
    rewrite IsRequestAllowed_frame; [apply Hfresh; by right|].
    intros Heq. apply limit_key_inj in Heq. apply Hnew.
    rewrite Heq. by apply (list_elem_of_fmap_2 (λ p, getIP p.2)).
  - split; [done|]. cbn [httpRequestsTotal]. by rewrite Count_Inc_ne.
Qed.

Lemma distinct_addresses_all_allowed_witness :
  let forwarded v :=
    {| Header := {["X-Forwarded-For" := [v]]}; RemoteAddr := "192.0.2.1:50001" |} in
  let at_ t := CallEnv t (t * 1000000 + 7) t Delivered in
  (ServeAll (NewRateLimiter 1 Second) HelloWorldHandler
     [(at_ 1000, forwarded "a"); (at_ 1001, forwarded "b"); (at_ 1002, forwarded "c")]
     {| store := ∅; httpRequestsTotal := ∅ |}).2
  = [{| status := Some 200; body := "Hello, World!" +:+ newline |};
     {| status := Some 200; body := "Hello, World!" +:+ newline |};
     {| status := Some 200; body := "Hello, World!" +:+ newline |}].
Proof.
  intros forwarded at_.
  apply (distinct_addresses_all_allowed (NewRateLimiter 1 Second) HelloWorldHandler);
    [done | by repeat constructor | | done].
  apply (bool_decide_unpack _). by vm_compute.
Defined.

(** The earlier [Middleware] names the caller by the remote address alone.
    On a request without an [X-Forwarded-For] value it agrees with
    [RateLimitMiddleware]: the same store and counters afterwards, and the
    same response, unless the request is refused, when the two differ in the
    body of the 429 response only. *)
Theorem Middleware_agrees_without_forwarded_header rl next env w r s :
  Header_Get (Header r) "X-Forwarded-For" = EmptyString →
  (Middleware rl next env w r s).1 = (RateLimitMiddleware rl next env w r s).1
  ∧ ((IsRequestAllowed rl env ("limit:" +:+ getIP r) (store s)).2 = true →
     (Middleware rl next env w r s).2 = next w r
     ∧ (RateLimitMiddleware rl next env w r s).2 = next w r)
  ∧ ((IsRequestAllowed rl env ("limit:" +:+ getIP r) (store s)).2 = false →
     (Middleware rl next env w r s).2 =
       Error w "Rate limit exceeded" StatusTooManyRequests
     ∧ (RateLimitMiddleware rl next env w r s).2 =
       Error w "Too Many Requests" StatusTooManyRequests).
Proof.
  intros Hget. rewrite RateLimitMiddleware_step. cbv zeta.
  unfold Middleware, getIP. rewrite Hget.
  rewrite decide_False by (by intros []).
  destruct (SplitHostPort (RemoteAddr r)) as [[ip port] err].
  destruct (IsRequestAllowed rl env ("limit:" +:+ ip) (store s)) as [d [|]]; simpl.
  - split; [done|]. split; [done|]. by intros [=].
  - split; [done|]. split; [|done]. by intros [=].
Qed.

Lemma Middleware_agrees_without_forwarded_header_witness :
  let r := {| Header := ∅; RemoteAddr := "192.0.2.1:50001" |} in
  let env := CallEnv 1000 1000000007 1000 Delivered in
  let s := {| store := ∅; httpRequestsTotal := ∅ |} in
  (Middleware (NewRateLimiter 0 Second) HelloWorldHandler env NewResponse r s).2
  = {| status := Some 429; body := "Rate limit exceeded" +:+ newline |}
  ∧ (RateLimitMiddleware (NewRateLimiter 0 Second) HelloWorldHandler env NewResponse r s).2
  = {| status := Some 429; body := "Too Many Requests" +:+ newline |}.
Proof.
  intros r env s.
  destruct (Middleware_agrees_without_forwarded_header
              (NewRateLimiter 0 Second) HelloWorldHandler env NewResponse r s)
    as (_ & _ & Hblocked); [by vm_compute|].
  destruct Hblocked as [-> ->]; [by vm_compute|]. by vm_compute.
Defined.

Lemma hello_responses reqs (bs : list bool) :
  length bs = length reqs →
  zip_with (response HelloWorldHandler) reqs bs =
    (λ b : bool, if b then {| status := Some 200%Z; body := "Hello, World!" +:+ newline |}
                 else {| status := Some 429%Z; body := "Too Many Requests" +:+ newline |})
      <$> bs.
Proof.
  revert bs. induction reqs as [|p reqs IH]; intros [|b bs] Hlen; try done.
  simpl in Hlen. simpl. rewrite IH by lia. by destruct b.
Qed.

(** The endpoint as [main] builds it, the hello handler behind the
    middleware, answers every request with status 200 and the greeting or
    with status 429 and "Too Many Requests", nothing else; the requests
    answered with 200 are as many as the [allowed] counter has grown by. *)
Theorem endpoint_answers_hello_or_429 rl reqs s :
  Forall (λ w, w = {| status := Some 200%Z; body := "Hello, World!" +:+ newline |}
               ∨ w = {| status := Some 429%Z; body := "Too Many Requests" +:+ newline |})
    (ServeAll rl HelloWorldHandler reqs s).2
  ∧ (length (filter (λ w, status w = Some 200%Z)
               (ServeAll rl HelloWorldHandler reqs s).2)
     + Count "allowed" (httpRequestsTotal s))%nat
    = Count "allowed" (httpRequestsTotal (ServeAll rl HelloWorldHandler reqs s).1).
Proof.
  destruct (ServeAll_spec rl HelloWorldHandler reqs s) as (_ & -> & _ & _ & ->).
  rewrite hello_responses
    by (rewrite length_fmap, serve_length; unfold keyed; by rewrite length_fmap).
  generalize ((serve rl (keyed reqs) (store s)).2.*2). intros bs.
  induction bs as [|b bs [IH1 IH2]]; [split; [constructor | done]|].
  rewrite fmap_cons. destruct (admissions_cons b bs) as [-> _]. split.
  - constructor; [destruct b; auto | done].
  - destruct b.
    + rewrite filter_cons_True by done. simpl in *. lia.
    + rewrite filter_cons_False by done. simpl in *. lia.
Qed.

End middleware.
